(** * Line-coding engine: encoders, spectral analysis and HTTP handlers

    A shallow embedding of [LineCodingPrefinal/app.py].

    Conventions of the embedding.
    - Bit values and sample levels are integers ([Z]).  The encoders only ever
      store the levels -1, 0 and 1, which NumPy's float64 arrays hold exactly;
      a bit value is kept as it is, which is what a NumPy integer array does
      within the 64-bit range ([int64]).
    - Real-valued quantities of the spectral part (frequencies, magnitudes,
      powers, metrics) are rationals ([Q]) with exact arithmetic.
    - Python exceptions are values of [exn], carried by the [result] monad.
    - The two numeric primitives the program takes from its libraries, the
      magnitude of [np.fft.fft] and the estimate of [scipy.signal.welch], are
      fields of a record [SpectralLib] that every analysis function receives.
    - The only state that outlives a request is NumPy's global random
      generator; it is the [World] the generate handler is served from. *)

From Stdlib Require Import String ZArith List Lia Bool QArith Lqa.
Import ListNotations.

(** ** Exceptions and the result monad *)

Inductive exn : Type :=
| ValueError
| IndexError
| ZeroDivisionError.

Inductive result (A : Type) : Type :=
| Ok (a : A)
| Raise (e : exn).

Arguments Ok {A} a.
Arguments Raise {A} e.

Definition bind {A B : Type} (c : result A) (k : A -> result B) : result B :=
  match c with
  | Ok a => k a
  | Raise e => Raise e
  end.

Notation "x <- c ;; k" := (bind c (fun x => k))
  (at level 61, c at next level, right associativity).
Notation "' p <- c ;; k" := (bind c (fun p => k))
  (at level 61, p pattern, c at next level, right associativity).

(** ** NumPy array primitives used by the encoders *)

Module Np.

(** [np.zeros(n)]: a negative dimension raises [ValueError]. *)
Definition zeros (n : Z) : result (list Z) :=
  if (n <? 0)%Z then Raise ValueError else Ok (repeat 0%Z (Z.to_nat n)).

(** [np.repeat(a, k)] for a scalar count: every element repeated [k]
    times, in order; the result has [k * len(a)] elements, and a negative
    size raises [ValueError]. *)
Definition repeat_each (a : list Z) (k : Z) : result (list Z) :=
  if (k * Z.of_nat (length a) <? 0)%Z then Raise ValueError
  else Ok (flat_map (fun x => repeat x (Z.to_nat k)) a).

(** [np.where(a == 1, 1, -1)]. *)
Definition where_eq1 (a : list Z) : list Z :=
  map (fun x => if (x =? 1)%Z then 1%Z else (-1)%Z) a.

(** A slice bound as Python resolves it against a length: a negative bound
    counts from the end, and every bound is clipped into [0, len]. *)
Definition slice_index (len i : Z) : Z :=
  if (i <? 0)%Z then Z.max 0 (i + len) else Z.min i len.

(** [a[start:stop] = v] for a scalar [v]: the positions of the (possibly
    empty) slice are overwritten, the length never changes. *)
Definition set_slice (a : list Z) (start stop v : Z) : list Z :=
  let len := Z.of_nat (length a) in
  let lo := Z.to_nat (slice_index len start) in
  let hi := Z.to_nat (slice_index len stop) in
  if (lo <? hi)%nat
  then firstn lo a ++ repeat v (hi - lo) ++ skipn hi a
  else a.

End Np.

(** [enumerate(data)], with the running index as an integer. *)
Fixpoint enumerate_from {A : Type} (i : Z) (l : list A) : list (Z * A) :=
  match l with
  | [] => []
  | x :: r => (i, x) :: enumerate_from (i + 1) r
  end.

Definition enumerate {A : Type} (l : list A) : list (Z * A) :=
  enumerate_from 0 l.

(** ** Waveform encoders *)

Definition encode_nrz_l (data : list Z) (samples_per_bit : Z)
  : result (list Z) :=
  data_upsampled <- Np.repeat_each data samples_per_bit ;;
  Ok (Np.where_eq1 data_upsampled).

Definition rz_step (samples_per_bit half_bit_samples : Z)
    (rz_signal : list Z) (ib : Z * Z) : list Z :=
  let '(i, bit) := ib in
  let start_index := (i * samples_per_bit)%Z in
  let mid_index := (start_index + half_bit_samples)%Z in
  if (bit =? 1)%Z
  then Np.set_slice rz_signal start_index mid_index 1
  else Np.set_slice rz_signal start_index mid_index (-1).

Definition encode_rz (data : list Z) (samples_per_bit : Z)
  : result (list Z) :=
  let total_samples := (Z.of_nat (length data) * samples_per_bit)%Z in
  rz_signal <- Np.zeros total_samples ;;
  let half_bit_samples := (samples_per_bit / 2)%Z in
  Ok (fold_left (rz_step samples_per_bit half_bit_samples)
                (enumerate data) rz_signal).

Definition manchester_step (samples_per_bit half_bit_samples : Z)
    (manchester_signal : list Z) (ib : Z * Z) : list Z :=
  let '(i, bit) := ib in
  let start_index := (i * samples_per_bit)%Z in
  let mid_index := (start_index + half_bit_samples)%Z in
  let end_index := (start_index + samples_per_bit)%Z in
  if (bit =? 1)%Z
  then Np.set_slice
         (Np.set_slice manchester_signal start_index mid_index (-1))
         mid_index end_index 1
  else Np.set_slice
         (Np.set_slice manchester_signal start_index mid_index 1)
         mid_index end_index (-1).

Definition encode_manchester (data : list Z) (samples_per_bit : Z)
  : result (list Z) :=
  let total_samples := (Z.of_nat (length data) * samples_per_bit)%Z in
  manchester_signal <- Np.zeros total_samples ;;
  let half_bit_samples := (samples_per_bit / 2)%Z in
  Ok (fold_left (manchester_step samples_per_bit half_bit_samples)
                (enumerate data) manchester_signal).

(** The loop state of [encode_ami]: the signal under construction and
    [last_polarity]. *)
Definition ami_step (samples_per_bit : Z)
    (st : list Z * Z) (ib : Z * Z) : list Z * Z :=
  let '(ami_signal, last_polarity) := st in
  let '(i, bit) := ib in
  if (bit =? 1)%Z
  then
    let start_index := (i * samples_per_bit)%Z in
    let end_index := (start_index + samples_per_bit)%Z in
    (Np.set_slice ami_signal start_index end_index last_polarity,
     (last_polarity * -1)%Z)
  else (ami_signal, last_polarity).

Definition encode_ami (data : list Z) (samples_per_bit : Z)
  : result (list Z) :=
  let total_samples := (Z.of_nat (length data) * samples_per_bit)%Z in
  ami_signal <- Np.zeros total_samples ;;
  let last_polarity := 1%Z in
  Ok (fst (fold_left (ami_step samples_per_bit)
                     (enumerate data) (ami_signal, last_polarity))).

(** The four schemes, and the encoder each name stands for (the list the
    analysis handler loops over). *)
Inductive EncodingScheme : Type := NRZ_L | RZ | Manchester | AMI.

Definition encoder (scheme : EncodingScheme)
  : list Z -> Z -> result (list Z) :=
  match scheme with
  | NRZ_L => encode_nrz_l
  | RZ => encode_rz
  | Manchester => encode_manchester
  | AMI => encode_ami
  end.

(** The samples of bit [i]: positions [i*s, (i+1)*s) of a signal. *)
Definition block (s : nat) (signal : list Z) (i : nat) : list Z :=
  firstn s (skipn (i * s) signal).

Definition sum_list (l : list Z) : Z := fold_right Z.add 0%Z l.

(** ** Spectral analysis *)

(** The numeric primitives taken from NumPy and SciPy.
    - [fft_abs signal] is [np.abs(np.fft.fft(signal))] for a non-empty signal;
    - [welch signal fs nperseg] is the pair [(freqs, psd)] returned by
      [scipy.signal.welch(signal, fs, nperseg=nperseg)] when [nperseg >= 1]. *)
Record SpectralLib : Type := {
  fft_abs : list Z -> list Q;
  welch : list Z -> Q -> Z -> list Q * list Q
}.

Definition Qlt_bool (a b : Q) : bool := negb (Qle_bool b a).

Module NpQ.

(** [np.fft.fft] refuses an empty input with [ValueError]. *)
Definition fft_magnitude (lib : SpectralLib) (signal : list Z)
  : result (list Q) :=
  match signal with
  | [] => Raise ValueError
  | _ :: _ => Ok (fft_abs lib signal)
  end.

(** Python's [a / b] on floats. *)
Definition truediv (a b : Q) : result Q :=
  if Qeq_bool b 0 then Raise ZeroDivisionError else Ok (a / b)%Q.

(** [np.fft.fftfreq(n, d)]: the bin indices
    [0, 1, ..., (n-1)//2, -(n//2), ..., -1], each times [1/(n*d)]. *)
Definition fftfreq (n : nat) (d : Q) : list Q :=
  let val := (1 / (inject_Z (Z.of_nat n) * d))%Q in
  let N := Z.to_nat ((Z.of_nat n - 1) / 2 + 1) in
  let p1 := map Z.of_nat (seq 0 N) in
  let p2 := map (fun k => (Z.of_nat k - Z.of_nat n / 2)%Z)
                (seq 0 (Z.to_nat (Z.of_nat n / 2))) in
  map (fun k => (inject_Z k * val)%Q) (p1 ++ p2).

(** [a[mask]] for a boolean mask: the lengths must agree. *)
Fixpoint select {A : Type} (mask : list bool) (a : list A)
  : result (list A) :=
  match mask, a with
  | [], [] => Ok []
  | m :: mask', x :: a' =>
      r <- select mask' a' ;;
      Ok (if m then x :: r else r)
  | _, _ => Raise IndexError
  end.

(** [np.max]: an empty array has no maximum. *)
Definition pick_max (m y : Q) : Q := if Qlt_bool m y then y else m.

Definition max (a : list Q) : result Q :=
  match a with
  | [] => Raise ValueError
  | x :: r => Ok (fold_left pick_max r x)
  end.

Definition sum (a : list Q) : Q := fold_left Qplus a 0%Q.

(** [np.cumsum]: the running sums, in order. *)
Fixpoint cumsum_from (acc : Q) (a : list Q) : list Q :=
  match a with
  | [] => []
  | x :: r => (acc + x)%Q :: cumsum_from (acc + x)%Q r
  end.

Definition cumsum (a : list Q) : list Q := cumsum_from 0%Q a.

(** [np.where(cond)[0]]: the indices at which the condition holds,
    ascending. *)
Fixpoint where_from (i : nat) (cond : list bool) : list nat :=
  match cond with
  | [] => []
  | c :: r => if c then i :: where_from (S i) r else where_from (S i) r
  end.

Definition where_ (cond : list bool) : list nat := where_from 0 cond.

(** [a[i]] for an index [i >= 0]. *)
Definition getitem (a : list Q) (i : nat) : result Q :=
  match nth_error a i with
  | Some x => Ok x
  | None => Raise IndexError
  end.

(** [a[-1]]. *)
Definition last_item (a : list Q) : result Q :=
  match a with
  | [] => Raise IndexError
  | _ :: _ => Ok (last a 0%Q)
  end.

(** [np.argmax]: the first index of the maximum; empty input raises. *)
Fixpoint argmax_from (best : Q) (besti i : nat) (a : list Q) : nat :=
  match a with
  | [] => besti
  | y :: r =>
      if Qlt_bool best y then argmax_from y i (S i) r
      else argmax_from best besti (S i) r
  end.

Definition argmax (a : list Q) : result nat :=
  match a with
  | [] => Raise ValueError
  | x :: r => Ok (argmax_from x 0 1 r)
  end.

(** [np.linspace(0, stop, num, endpoint=False)]. *)
Definition linspace0 (stop : Q) (num : Z) : result (list Q) :=
  if (num <? 0)%Z then Raise ValueError
  else Ok (map (fun k => (inject_Z (Z.of_nat k) * (stop / inject_Z num))%Q)
               (seq 0 (Z.to_nat num))).

End NpQ.

(** [x / np.max(x) if np.max(x) > 0 else x]. *)
Definition normalize (a : list Q) : result (list Q) :=
  mx <- NpQ.max a ;;
  Ok (if Qlt_bool 0 mx then map (fun x => (x / mx)%Q) a else a).

Definition calculate_fft (lib : SpectralLib)
    (signal_array : list Z) (sampling_rate : Q)
  : result (list Q * list Q) :=
  let signal := signal_array in
  let n := length signal in
  fft_magnitude <- NpQ.fft_magnitude lib signal ;;
  d <- NpQ.truediv 1 sampling_rate ;;
  let freqs := NpQ.fftfreq n d in
  let positive_freq_idx := map (fun f => Qle_bool 0 f) freqs in
  freqs_positive <- NpQ.select positive_freq_idx freqs ;;
  magnitude_positive <- NpQ.select positive_freq_idx fft_magnitude ;;
  magnitude_normalized <- normalize magnitude_positive ;;
  Ok (freqs_positive, magnitude_normalized).

(** [scipy.signal.welch] with an explicit [nperseg], at a positive sampling
    rate: a segment length below one is refused with [ValueError]. *)
Definition scipy_welch (lib : SpectralLib)
    (signal : list Z) (fs : Q) (nperseg : Z) : result (list Q * list Q) :=
  if (nperseg <? 1)%Z then Raise ValueError
  else Ok (welch lib signal fs nperseg).

Definition welch_nperseg (signal : list Z) : Z :=
  Z.min 256 (Z.of_nat (length signal) / 4).

Definition calculate_psd (lib : SpectralLib)
    (signal_array : list Z) (sampling_rate : Q)
  : result (list Q * list Q) :=
  let signal := signal_array in
  '(freqs, psd) <- scipy_welch lib signal sampling_rate
                               (welch_nperseg signal) ;;
  psd_normalized <- normalize psd ;;
  Ok (freqs, psd_normalized).

Record EfficiencyMetrics : Type := {
  dc_component : Q;
  bandwidth_90 : Q;
  spectral_efficiency : Q;
  peak_frequency : Q;
  bandwidth_efficiency : Q;
  total_power : Q
}.

(** The retained bins of the metrics computation: the non-negative
    frequencies and the raw power [|DFT|^2] at each of them. *)
Definition positive_spectrum (lib : SpectralLib)
    (signal : list Z) (sampling_rate : Q) : result (list Q * list Q) :=
  fft_magnitude <- NpQ.fft_magnitude lib signal ;;
  let n := length signal in
  d <- NpQ.truediv 1 sampling_rate ;;
  let freqs := NpQ.fftfreq n d in
  let psd := map (fun x => (x * x)%Q) fft_magnitude in
  let positive_idx := map (fun f => Qle_bool 0 f) freqs in
  freqs_positive <- NpQ.select positive_idx freqs ;;
  psd_positive <- NpQ.select positive_idx psd ;;
  Ok (freqs_positive, psd_positive).

(** The indices whose cumulative power has reached 90% of the total. *)
Definition bandwidth_indices (psd_positive : list Q) : list nat :=
  let total_power := NpQ.sum psd_positive in
  let cumulative_power := NpQ.cumsum psd_positive in
  let total_power_90 := (total_power * (9 # 10))%Q in
  NpQ.where_ (map (fun c => Qle_bool total_power_90 c) cumulative_power).

Definition calculate_spectral_efficiency_metrics (lib : SpectralLib)
    (signal_array : list Z) (data_rate sampling_rate : Q)
  : result EfficiencyMetrics :=
  let signal := signal_array in
  '(freqs_positive, psd_positive) <-
      positive_spectrum lib signal sampling_rate ;;
  let dc_power := match psd_positive with x :: _ => x | [] => 0%Q end in
  let total_power := NpQ.sum psd_positive in
  let dc_percentage :=
    if Qlt_bool 0 total_power then (dc_power / total_power * 100)%Q
    else 0%Q in
  let bandwidth_idx := bandwidth_indices psd_positive in
  bandwidth_90 <- match bandwidth_idx with
                  | i :: _ => NpQ.getitem freqs_positive i
                  | [] => NpQ.last_item freqs_positive
                  end ;;
  let spectral_efficiency :=
    if Qlt_bool 0 bandwidth_90 then (data_rate / bandwidth_90)%Q else 0%Q in
  am <- NpQ.argmax (tl psd_positive) ;;
  let peak_idx := (am + 1)%nat in
  peak_frequency <- (if (peak_idx <? length freqs_positive)%nat
                     then NpQ.getitem freqs_positive peak_idx
                     else Ok 0%Q) ;;
  let bandwidth_efficiency :=
    if Qlt_bool 0 data_rate then (bandwidth_90 / data_rate)%Q else 0%Q in
  Ok {| dc_component := dc_percentage;
        bandwidth_90 := bandwidth_90;
        spectral_efficiency := spectral_efficiency;
        peak_frequency := peak_frequency;
        bandwidth_efficiency := bandwidth_efficiency;
        total_power := total_power |}.

(** ** Request handlers *)

(** What a handler returns: the JSON body with status 200, the explicit
    rejection (status 400 with its error message), or status 500 for an
    exception caught by the handler's [except]. *)
Inductive response (A : Type) : Type :=
| Http200 (body : A)
| Http400 (error : string)
| Http500 (e : exn).

Arguments Http200 {A} body.
Arguments Http400 {A} error.
Arguments Http500 {A} e.

(** [try: ... except Exception as e: return jsonify(error), 500]. *)
Definition try_except {A : Type} (c : result A) : response A :=
  match c with
  | Ok a => Http200 a
  | Raise e => Http500 e
  end.

Record EncodeBody : Type := {
  time : list Q;
  original : list Z;
  nrz_l : list Z;
  rz : list Z;
  manchester : list Z;
  ami : list Z
}.

(** Handler of [/api/encode]. *)
Definition encode (bits : list Z) (samples_per_bit : Z)
  : response EncodeBody :=
  match bits with
  | [] => Http400 "No bits provided"
  | _ :: _ =>
      try_except (
        let data_array := bits in
        let T := inject_Z (Z.of_nat (length bits)) in
        time_array <- NpQ.linspace0 T
                        (Z.of_nat (length bits) * samples_per_bit) ;;
        data_upsampled <- Np.repeat_each data_array samples_per_bit ;;
        nrz_l <- encode_nrz_l data_array samples_per_bit ;;
        rz <- encode_rz data_array samples_per_bit ;;
        manchester <- encode_manchester data_array samples_per_bit ;;
        ami <- encode_ami data_array samples_per_bit ;;
        Ok {| time := time_array;
              original := data_upsampled;
              nrz_l := nrz_l;
              rz := rz;
              manchester := manchester;
              ami := ami |})
  end.

Record SpectralSummary : Type := {
  frequencies_fft : list Q;
  magnitude : list Q;
  frequencies_psd : list Q;
  psd : list Q;
  metrics : EfficiencyMetrics
}.

(** The body of the loop over the four encoded signals. *)
Definition analyze_signal (lib : SpectralLib)
    (signal : list Z) (data_rate sampling_rate : Q)
  : result SpectralSummary :=
  '(freqs_fft, magnitude) <- calculate_fft lib signal sampling_rate ;;
  '(freqs_psd, psd) <- calculate_psd lib signal sampling_rate ;;
  metrics <- calculate_spectral_efficiency_metrics
               lib signal data_rate sampling_rate ;;
  Ok {| frequencies_fft := firstn (length freqs_fft / 2) freqs_fft;
        magnitude := firstn (length magnitude / 2) magnitude;
        frequencies_psd := freqs_psd;
        psd := psd;
        metrics := metrics |}.

(** The [results] dictionary, one entry per scheme name. *)
Definition AnalysisBody : Type := EncodingScheme -> SpectralSummary.

(** Handler of [/api/spectral-analysis]. *)
Definition spectral_analysis (lib : SpectralLib)
    (bits : list Z) (samples_per_bit : Z) (data_rate : Q)
  : response AnalysisBody :=
  match bits with
  | [] => Http400 "No bits provided"
  | _ :: _ =>
      try_except (
        let data_array := bits in
        let sampling_rate := (inject_Z samples_per_bit * data_rate)%Q in
        nrz_l_signal <- encode_nrz_l data_array samples_per_bit ;;
        rz_signal <- encode_rz data_array samples_per_bit ;;
        manchester_signal <- encode_manchester data_array samples_per_bit ;;
        ami_signal <- encode_ami data_array samples_per_bit ;;
        r_nrz_l <- analyze_signal lib nrz_l_signal data_rate sampling_rate ;;
        r_rz <- analyze_signal lib rz_signal data_rate sampling_rate ;;
        r_manchester <-
          analyze_signal lib manchester_signal data_rate sampling_rate ;;
        r_ami <- analyze_signal lib ami_signal data_rate sampling_rate ;;
        Ok (fun name => match name with
                        | NRZ_L => r_nrz_l
                        | RZ => r_rz
                        | Manchester => r_manchester
                        | AMI => r_ami
                        end))
  end.

(** *** The state shared by requests

    NumPy's global random generator is the one piece of state that survives
    a request.  It is modelled by the stream of values it will deliver and
    the position reached in that stream. *)
Record World : Type := {
  random_stream : nat -> Z;
  random_pos : nat
}.

(** Handler of [/api/generate]: [np.random.randint(0, 2, N)] consumes [N]
    draws; a negative [N] raises [ValueError]. *)
Definition generate (N : Z) (w : World) : response (list Z) * World :=
  if (N <? 0)%Z then (Http500 ValueError, w)
  else
    let n := Z.to_nat N in
    (Http200 (map (fun k => (random_stream w (random_pos w + k) mod 2)%Z)
                  (seq 0 n)),
     {| random_stream := random_stream w;
        random_pos := random_pos w + n |}).

(** ** A reference instance of the numeric primitives on four samples

    On a four-sample signal the DFT is
    [X0 = x0+x1+x2+x3], [X1 = (x0-x2) - i(x1-x3)], [X2 = x0-x1+x2-x3],
    [X3 = conj X1].  [Z.sqrt] is exact on perfect squares, so [fft4_abs] is
    the exact magnitude spectrum whenever [|X1|] is an integer.  Welch's
    estimate of a four-sample signal uses one-sample segments
    ([nperseg = 1]): each segment, its mean removed, is 0, and the estimate
    is the single bin 0 at frequency 0.  This instance is used to evaluate
    the analysis on concrete four-sample signals only. *)
Definition fft4_abs (signal : list Z) : list Q :=
  match signal with
  | [x0; x1; x2; x3] =>
      let m1 := Z.sqrt ((x0 - x2) * (x0 - x2) + (x1 - x3) * (x1 - x3)) in
      map inject_Z [Z.abs (x0 + x1 + x2 + x3); m1;
                    Z.abs (x0 - x1 + x2 - x3); m1]%Z
  | _ => map (fun _ => 0%Q) signal
  end.

Definition lib4 : SpectralLib :=
  {| fft_abs := fft4_abs;
     welch := fun _ _ _ => ([0%Q], [0%Q]) |}.

(** The same on one and two samples, where the DFT is [X0 = x0] and
    [X0 = x0 + x1], [X1 = x0 - x1]. *)
Definition fft2_abs (signal : list Z) : list Q :=
  match signal with
  | [x0] => [inject_Z (Z.abs x0)]
  | [x0; x1] => map inject_Z [Z.abs (x0 + x1); Z.abs (x0 - x1)]%Z
  | _ => fft4_abs signal
  end.

Definition lib2 : SpectralLib :=
  {| fft_abs := fft2_abs; welch := welch lib4 |}.

(** ** A reference instance on eight samples of period four

    An eight-sample signal that repeats after four samples has the DFT
    [X0 = 2 (x0+x1+x2+x3)], [X2 = 2 ((x0-x2) - i (x1-x3))],
    [X4 = 2 (x0-x1+x2-x3)], [X6 = conj X2], and 0 at the odd bins;
    [fft8_abs] is its exact magnitude spectrum whenever [|X2|] is an
    integer.  Welch's estimate of an eight-sample signal uses two-sample
    segments ([nperseg = 2]) overlapping by one sample: the periodic Hann
    window is [0, 1]; a segment [a, b] with its mean removed and the window
    applied is [0, (b - a) / 2], whose periodogram is [((b - a) / 2)^2 / fs]
    at both bins, 0 and [fs / 2]; the estimate is the mean over the
    segments.  This instance is used to evaluate the analysis on concrete
    eight-sample signals of period four only. *)
Definition fft8_abs (signal : list Z) : list Q :=
  match signal with
  | [x0; x1; x2; x3; y0; y1; y2; y3] =>
      if ((x0 =? y0) && (x1 =? y1) && (x2 =? y2) && (x3 =? y3))%Z
      then
        let m2 :=
          (2 * Z.sqrt ((x0 - x2) * (x0 - x2) + (x1 - x3) * (x1 - x3)))%Z in
        map inject_Z [2 * Z.abs (x0 + x1 + x2 + x3); 0; m2; 0;
                      2 * Z.abs (x0 - x1 + x2 - x3); 0; m2; 0]%Z
      else map (fun _ => 0%Q) signal
  | _ => fft4_abs signal
  end.

Definition welch2 (signal : list Z) (fs : Q) (nperseg : Z)
  : list Q * list Q :=
  if (nperseg =? 2)%Z
  then
    let periodograms :=
      map (fun ab : Z * Z =>
             inject_Z (snd ab - fst ab) / 2
             * (inject_Z (snd ab - fst ab) / 2) / fs)
          (combine signal (tl signal)) in
    let mean :=
      NpQ.sum periodograms / inject_Z (Z.of_nat (length periodograms)) in
    ([0; fs / 2], [mean; mean])
  else ([0%Q], [0%Q]).

Definition lib8 : SpectralLib :=
  {| fft_abs := fft8_abs; welch := welch2 |}.

(** ** Integers a NumPy integer array holds exactly *)
Definition int64 (x : Z) : Prop := (- 2 ^ 63 <= x < 2 ^ 63)%Z.

(** ** Block-level descriptions of the encoded signals

    What each scheme writes for one bit over [s] samples, stated directly;
    the encoders are proved to produce these blocks. *)

Definition nrz_l_level (bit : Z) : Z := if (bit =? 1)%Z then 1%Z else (-1)%Z.

(** The level of the first half-block of a Manchester bit; the second
    half-block is at the opposite level. *)
Definition manchester_level (bit : Z) : Z :=
  if (bit =? 1)%Z then (-1)%Z else 1%Z.

Definition manchester_block (s : nat) (bit : Z) : list Z :=
  repeat (manchester_level bit) (s / 2)
  ++ repeat (- manchester_level bit)%Z (s - s / 2).

Definition rz_block (s : nat) (bit : Z) : list Z :=
  repeat (nrz_l_level bit) (s / 2) ++ repeat 0%Z (s - s / 2).

(** The AMI level of every bit, given the polarity the next mark takes. *)
Fixpoint ami_levels (polarity : Z) (data : list Z) : list Z :=
  match data with
  | [] => []
  | bit :: rest =>
      if (bit =? 1)%Z
      then polarity :: ami_levels (polarity * -1)%Z rest
      else 0%Z :: ami_levels polarity rest
  end.

(** The number of marks (bits equal to 1) among the first [i] bits. *)
Definition marks_before (data : list Z) (i : nat) : nat :=
  count_occ Z.eq_dec (firstn i data) 1%Z.

(** The sum of the samples of the first half-block ([s // 2] samples) plus
    the sum of the samples of the second half-block (the rest). *)
Definition halves_sum (s : nat) (blk : list Z) : Z :=
  (sum_list (firstn (s / 2) blk) + sum_list (skipn (s / 2) blk))%Z.

(** ** Shapes of a normalized array *)

(** The maximum of the array is exactly 1. *)
Definition unit_peak (a : list Q) : Prop :=
  Exists (fun x => x == 1) a /\ Forall (fun x => x <= 1) a.

Definition all_zero (a : list Q) : Prop := Forall (fun x => x == 0) a.

Definition non_negative (a : list Q) : Prop := Forall (fun x => 0 <= x) a.

(** [out] is [raw] scaled to a maximum of 1, or [raw] itself, untouched,
    when [raw] is all zeros. *)
Definition normalized_from (raw out : list Q) : Prop :=
  unit_peak out \/ (all_zero raw /\ out = raw).

(** ** Frequency bins

    The number of bins with a non-negative frequency, and the frequency of
    bin [j], for [n] samples at sampling rate [fs]. *)
Definition positive_bins (n : nat) : nat :=
  Z.to_nat ((Z.of_nat n - 1) / 2 + 1).

Definition bin_freq (n : nat) (fs : Q) (j : nat) : Q :=
  inject_Z (Z.of_nat j) * (1 / (inject_Z (Z.of_nat n) * (1 / fs))).

(** ** Well-formed bit sequences and decodability *)

(** A bit sequence proper: every value is 0 or 1. *)
Definition binary (data : list Z) : Prop :=
  Forall (fun bit => bit = 0%Z \/ bit = 1%Z) data.

(** The least samples_per_bit at which a scheme writes at least one sample
    that depends on the bit: RZ writes only the first [S // 2] samples. *)
Definition min_samples (scheme : EncodingScheme) : Z :=
  match scheme with
  | RZ => 2%Z
  | _ => 1%Z
  end.

Example nrz_l_scenario :
  encode_nrz_l [1; 0; 1; 1]%Z 4
  = Ok [1; 1; 1; 1; -1; -1; -1; -1; 1; 1; 1; 1; 1; 1; 1; 1]%Z.
Proof. reflexivity. Qed.

Example rz_odd : encode_rz [1; 0]%Z 3 = Ok [1; 0; 0; -1; 0; 0]%Z.
Proof. reflexivity. Qed.

Example manchester_odd :
  encode_manchester [1; 0]%Z 3 = Ok [-1; 1; 1; 1; -1; -1]%Z.
Proof. reflexivity. Qed.

Example ami_zeros : encode_ami [0; 0; 0]%Z 4 = Ok (repeat 0%Z 12).
Proof. reflexivity. Qed.

(** * Properties of the encoders *)

(** ** Slice assignment *)

Section SetSlice.

Lemma slice_index_in_range (len i : Z) :
  (0 <= len -> 0 <= Np.slice_index len i <= len)%Z.
Proof.
  unfold Np.slice_index. destruct (Z.ltb_spec i 0); lia.
Qed.

Lemma set_slice_length (a : list Z) (start stop v : Z) :
  length (Np.set_slice a start stop v) = length a.
Proof.
  unfold Np.set_slice.
  pose proof (slice_index_in_range (Z.of_nat (length a)) start).
  pose proof (slice_index_in_range (Z.of_nat (length a)) stop).
  destruct (Nat.ltb_spec
              (Z.to_nat (Np.slice_index (Z.of_nat (length a)) start))
              (Z.to_nat (Np.slice_index (Z.of_nat (length a)) stop)));
    [ | reflexivity ].
  rewrite !length_app, repeat_length, length_firstn, length_skipn. lia.
Qed.

(** Writing exactly the middle part of [pre ++ mid ++ post]. *)
Lemma set_slice_middle (pre mid post : list Z) (start stop v : Z) :
  start = Z.of_nat (length pre) ->
  stop = Z.of_nat (length pre + length mid) ->
  Np.set_slice (pre ++ mid ++ post) start stop v
  = pre ++ repeat v (length mid) ++ post.
Proof.
  intros -> ->. unfold Np.set_slice, Np.slice_index.
  rewrite !length_app.
  destruct (Z.ltb_spec (Z.of_nat (length pre)) 0); [ lia | ].
  destruct (Z.ltb_spec (Z.of_nat (length pre + length mid)) 0); [ lia | ].
  rewrite !Z.min_l by lia. rewrite !Nat2Z.id.
  destruct (Nat.ltb_spec (length pre) (length pre + length mid)) as [Hlt|Hge].
  - rewrite firstn_app, firstn_all, Nat.sub_diag. simpl. rewrite app_nil_r.
    replace (length pre + length mid - length pre)%nat
      with (length mid) by lia.
    rewrite (app_assoc pre mid post), skipn_app.
    rewrite skipn_all2 by (rewrite length_app; lia).
    rewrite length_app, Nat.sub_diag. reflexivity.
  - assert (length mid = 0%nat) as Hm by lia.
    apply length_zero_iff_nil in Hm. subst mid. reflexivity.
Qed.

End SetSlice.

(** ** Blocks of a signal made of equal-length pieces *)

Section Blocks.

Variable s : nat.

Lemma block_concat (pieces : list (list Z)) (i : nat) (p : list Z) :
  Forall (fun q => length q = s) pieces ->
  nth_error pieces i = Some p ->
  block s (concat pieces) i = p.
Proof.
  unfold block. intros Hall. revert i.
  induction Hall as [ | q pieces Hq Hall IH ]; intros i Hi.
  - destruct i; discriminate.
  - destruct i as [ | i ]; simpl in *.
    + injection Hi as ->. rewrite firstn_app, Hq, Nat.sub_diag.
      simpl. rewrite app_nil_r. apply firstn_all2. lia.
    + rewrite skipn_app, Hq.
      rewrite skipn_all2 by lia. simpl.
      replace (s + i * s - s)%nat with (i * s)%nat by lia.
      apply IH. exact Hi.
Qed.

Lemma length_concat_blocks (pieces : list (list Z)) :
  Forall (fun q => length q = s) pieces ->
  length (concat pieces) = (length pieces * s)%nat.
Proof.
  induction 1 as [ | q pieces Hq Hall IH ]; simpl; [ reflexivity | ].
  rewrite length_app, Hq, IH. reflexivity.
Qed.

End Blocks.

(** ** The loops of the encoders

    Each loop is run from the state reached after [i] bits: the samples
    already written ([done]) followed by the zeros still untouched. *)

Section Loops.

Variable s : nat.

Lemma zeros_split (n : nat) :
  repeat 0%Z (S n * s) = repeat 0%Z s ++ repeat 0%Z (n * s).
Proof. simpl. apply repeat_app. Qed.

Lemma half_split (v : Z) :
  repeat v s = repeat v (s / 2) ++ repeat v (s - s / 2).
Proof.
  rewrite <- repeat_app. f_equal.
  pose proof (Nat.Div0.div_le_upper_bound s 2 s). lia.
Qed.

Lemma half_le : (s / 2 <= s)%nat.
Proof. apply Nat.Div0.div_le_upper_bound. lia. Qed.

Lemma manchester_iteration (done rest : list Z) (i : nat) (bit : Z) :
  length done = (i * s)%nat ->
  manchester_step (Z.of_nat s) (Z.of_nat s / 2)
    (done ++ repeat 0%Z s ++ rest) (Z.of_nat i, bit)
  = done ++ manchester_block s bit ++ rest.
Proof.
  intros Hdone. pose proof half_le as Hh.
  assert (Z.of_nat s / 2 = Z.of_nat (s / 2))%Z as Hdiv
      by (rewrite Nat2Z.inj_div; reflexivity).
  unfold manchester_step, manchester_block, manchester_level.
  rewrite Hdiv, (half_split 0), <- !app_assoc.
  destruct (bit =? 1)%Z.
  - rewrite set_slice_middle
      by (rewrite ?repeat_length; nia).
    rewrite repeat_length.
    rewrite (app_assoc done (repeat (-1)%Z (s / 2))).
    rewrite (set_slice_middle (done ++ repeat (-1)%Z (s / 2)))
      by (rewrite ?length_app, ?repeat_length; nia).
    rewrite repeat_length, <- !app_assoc. reflexivity.
  - rewrite set_slice_middle
      by (rewrite ?repeat_length; nia).
    rewrite repeat_length.
    rewrite (app_assoc done (repeat 1%Z (s / 2))).
    rewrite (set_slice_middle (done ++ repeat 1%Z (s / 2)))
      by (rewrite ?length_app, ?repeat_length; nia).
    rewrite repeat_length, <- !app_assoc. reflexivity.
Qed.

Lemma manchester_loop (data : list Z) :
  forall (done : list Z) (i : nat),
    length done = (i * s)%nat ->
    fold_left (manchester_step (Z.of_nat s) (Z.of_nat s / 2))
      (enumerate_from (Z.of_nat i) data)
      (done ++ repeat 0%Z (length data * s))
    = done ++ concat (map (manchester_block s) data).
Proof.
  induction data as [ | bit data IH ]; intros done i Hdone.
  - reflexivity.
  - cbn [length enumerate_from fold_left map concat].
    rewrite zeros_split, manchester_iteration by exact Hdone.
    replace (Z.of_nat i + 1)%Z with (Z.of_nat (S i)) by lia.
    rewrite (app_assoc done), IH, <- app_assoc; [ reflexivity | ].
    unfold manchester_block.
    rewrite !length_app, !repeat_length. pose proof half_le. lia.
Qed.

Lemma rz_iteration (done rest : list Z) (i : nat) (bit : Z) :
  length done = (i * s)%nat ->
  rz_step (Z.of_nat s) (Z.of_nat s / 2)
    (done ++ repeat 0%Z s ++ rest) (Z.of_nat i, bit)
  = done ++ rz_block s bit ++ rest.
Proof.
  intros Hdone. pose proof half_le as Hh.
  assert (Z.of_nat s / 2 = Z.of_nat (s / 2))%Z as Hdiv
      by (rewrite Nat2Z.inj_div; reflexivity).
  unfold rz_step, rz_block, nrz_l_level.
  rewrite Hdiv, (half_split 0), <- !app_assoc.
  destruct (bit =? 1)%Z;
    rewrite set_slice_middle by (rewrite ?repeat_length; nia);
    rewrite repeat_length; reflexivity.
Qed.

Lemma rz_loop (data : list Z) :
  forall (done : list Z) (i : nat),
    length done = (i * s)%nat ->
    fold_left (rz_step (Z.of_nat s) (Z.of_nat s / 2))
      (enumerate_from (Z.of_nat i) data)
      (done ++ repeat 0%Z (length data * s))
    = done ++ concat (map (rz_block s) data).
Proof.
  induction data as [ | bit data IH ]; intros done i Hdone.
  - reflexivity.
  - cbn [length enumerate_from fold_left map concat].
    rewrite zeros_split, rz_iteration by exact Hdone.
    replace (Z.of_nat i + 1)%Z with (Z.of_nat (S i)) by lia.
    rewrite (app_assoc done), IH, <- app_assoc; [ reflexivity | ].
    unfold rz_block.
    rewrite !length_app, !repeat_length. pose proof half_le. lia.
Qed.

Lemma ami_mark (done rest : list Z) (i : nat) (polarity : Z) :
  length done = (i * s)%nat ->
  Np.set_slice (done ++ repeat 0%Z s ++ rest)
    (Z.of_nat i * Z.of_nat s) (Z.of_nat i * Z.of_nat s + Z.of_nat s)
    polarity
  = done ++ repeat polarity s ++ rest.
Proof.
  intros Hdone.
  rewrite set_slice_middle by (rewrite ?repeat_length; nia).
  rewrite repeat_length. reflexivity.
Qed.

Lemma ami_loop (data : list Z) :
  forall (done : list Z) (i : nat) (polarity : Z),
    length done = (i * s)%nat ->
    fst (fold_left (ami_step (Z.of_nat s))
           (enumerate_from (Z.of_nat i) data)
           (done ++ repeat 0%Z (length data * s), polarity))
    = done ++ concat (map (fun level => repeat level s)
                          (ami_levels polarity data)).
Proof.
  induction data as [ | bit data IH ]; intros done i polarity Hdone.
  - reflexivity.
  - cbn [length enumerate_from fold_left ami_levels].
    rewrite zeros_split. unfold ami_step at 2.
    replace (Z.of_nat i + 1)%Z with (Z.of_nat (S i)) by lia.
    destruct (bit =? 1)%Z; cbn [map concat].
    + rewrite ami_mark by exact Hdone.
      rewrite (app_assoc done), IH, <- app_assoc; [ reflexivity | ].
      rewrite length_app, repeat_length. lia.
    + rewrite (app_assoc done), IH, <- app_assoc; [ reflexivity | ].
      rewrite length_app, repeat_length. lia.
Qed.

End Loops.

(** ** The encoders, block by block *)

Section EncoderBlocks.

Variable samples_per_bit : Z.
Hypothesis samples_nonneg : (0 <= samples_per_bit)%Z.

Let s : nat := Z.to_nat samples_per_bit.

Lemma zeros_total (data : list Z) :
  Np.zeros (Z.of_nat (length data) * samples_per_bit)
  = Ok (repeat 0%Z (length data * s)).
Proof.
  unfold Np.zeros.
  destruct (Z.ltb_spec (Z.of_nat (length data) * samples_per_bit) 0);
    [ nia | ].
  do 2 f_equal. subst s. nia.
Qed.

Lemma encode_nrz_l_blocks (data : list Z) :
  encode_nrz_l data samples_per_bit
  = Ok (concat (map (fun bit => repeat (nrz_l_level bit) s) data)).
Proof.
  unfold encode_nrz_l, Np.repeat_each.
  destruct (Z.ltb_spec (samples_per_bit * Z.of_nat (length data)) 0);
    [ nia | ].
  cbn [bind]. f_equal. fold s. unfold Np.where_eq1. clear.
  induction data as [ | bit data IH ]; [ reflexivity | ].
  cbn [flat_map map concat]. rewrite map_app, IH, map_repeat.
  reflexivity.
Qed.

Lemma encode_rz_blocks (data : list Z) :
  encode_rz data samples_per_bit = Ok (concat (map (rz_block s) data)).
Proof.
  unfold encode_rz. rewrite zeros_total. cbn [bind]. f_equal.
  replace samples_per_bit with (Z.of_nat s) by (subst s; lia).
  apply (rz_loop s data [] 0). reflexivity.
Qed.

Lemma encode_manchester_blocks (data : list Z) :
  encode_manchester data samples_per_bit
  = Ok (concat (map (manchester_block s) data)).
Proof.
  unfold encode_manchester. rewrite zeros_total. cbn [bind]. f_equal.
  replace samples_per_bit with (Z.of_nat s) by (subst s; lia).
  apply (manchester_loop s data [] 0). reflexivity.
Qed.

Lemma encode_ami_blocks (data : list Z) :
  encode_ami data samples_per_bit
  = Ok (concat (map (fun level => repeat level s) (ami_levels 1 data))).
Proof.
  unfold encode_ami. rewrite zeros_total. cbn [bind]. f_equal.
  replace samples_per_bit with (Z.of_nat s) by (subst s; lia).
  apply (ami_loop s data [] 0 1). reflexivity.
Qed.

End EncoderBlocks.

Lemma length_ami_levels (data : list Z) :
  forall polarity, length (ami_levels polarity data) = length data.
Proof.
  induction data as [ | bit data IH ]; intros polarity; simpl;
    [ reflexivity | ].
  destruct (bit =? 1)%Z; simpl; rewrite IH; reflexivity.
Qed.

Lemma manchester_block_length (s : nat) (bit : Z) :
  length (manchester_block s bit) = s.
Proof.
  unfold manchester_block. rewrite length_app, !repeat_length.
  pose proof (half_le s). lia.
Qed.

Lemma rz_block_length (s : nat) (bit : Z) : length (rz_block s bit) = s.
Proof.
  unfold rz_block. rewrite length_app, !repeat_length.
  pose proof (half_le s). lia.
Qed.

Lemma Forall_map_length {A : Type} (f : A -> list Z) (s : nat) (l : list A) :
  (forall x, length (f x) = s) ->
  Forall (fun q => length q = s) (map f l).
Proof.
  intros Hf. apply Forall_forall. intros q Hq.
  apply in_map_iff in Hq. destruct Hq as [x [<- _]]. apply Hf.
Qed.

(** ** AMI levels *)

Lemma firstn_succ_nth {A : Type} (l : list A) :
  forall (k : nat) (x : A),
    nth_error l k = Some x -> firstn (S k) l = firstn k l ++ [x].
Proof.
  induction l as [ | y l IH ]; intros [ | k ] x Hx; try discriminate.
  - injection Hx as ->. reflexivity.
  - cbn [nth_error] in Hx. rewrite (firstn_cons (S k)), (IH k x Hx).
    reflexivity.
Qed.

Lemma marks_before_succ (data : list Z) (k : nat) (bit : Z) :
  nth_error data k = Some bit ->
  marks_before data (S k)
  = (marks_before data k + if (bit =? 1)%Z then 1 else 0)%nat.
Proof.
  intros Hk. unfold marks_before.
  rewrite (firstn_succ_nth data k bit Hk), count_occ_app. f_equal.
  cbn [count_occ]. destruct (Z.eq_dec bit 1) as [->|Hne].
  - reflexivity.
  - destruct (Z.eqb_spec bit 1); [ contradiction | reflexivity ].
Qed.

(** Between two marks with no mark in between, exactly one mark is added. *)
Lemma marks_before_next (data : list Z) (i : nat) :
  nth_error data i = Some 1%Z ->
  forall d : nat,
    (forall k, (i < k < i + 1 + d)%nat -> nth_error data k <> Some 1%Z) ->
    (i + d < length data)%nat ->
    marks_before data (i + 1 + d) = S (marks_before data i).
Proof.
  intros Hi. induction d as [ | d IH ]; intros Hnone Hlen.
  - replace (i + 1 + 0)%nat with (S i) by lia.
    rewrite (marks_before_succ data i 1 Hi). simpl. lia.
  - replace (i + 1 + S d)%nat with (S (i + 1 + d)) by lia.
    destruct (nth_error data (i + 1 + d)) as [ bit | ] eqn:Hk.
    + rewrite (marks_before_succ data (i + 1 + d) bit Hk).
      rewrite IH by (try (intros k Hk'; apply Hnone); lia).
      destruct (Z.eqb_spec bit 1) as [->|Hne]; [ | lia ].
      exfalso. apply (Hnone (i + 1 + d)%nat); [ lia | exact Hk ].
    + apply nth_error_None in Hk. lia.
Qed.

Lemma marks_before_none (data : list Z) (i : nat) :
  (forall k, (k < i)%nat -> nth_error data k <> Some 1%Z) ->
  marks_before data i = 0%nat.
Proof.
  intros Hnone. unfold marks_before. apply count_occ_not_In.
  intros Hin. apply In_nth_error in Hin. destruct Hin as [k Hk].
  assert (k < i)%nat as Hlt.
  { assert (k < length (firstn i data))%nat as Hl
        by (apply nth_error_Some; congruence).
    rewrite length_firstn in Hl. lia. }
  rewrite nth_error_firstn in Hk.
  destruct (Nat.ltb_spec k i); [ | lia ].
  exact (Hnone k Hlt Hk).
Qed.

Lemma alternating_sign (k : nat) :
  ((-1) ^ Z.of_nat k = 1 \/ (-1) ^ Z.of_nat k = -1)%Z.
Proof.
  induction k as [ | k IH ]; [ left; reflexivity | ].
  rewrite Nat2Z.inj_succ, Z.pow_succ_r by lia. lia.
Qed.

Lemma ami_levels_nth (data : list Z) :
  forall (polarity : Z) (i : nat) (bit : Z),
    nth_error data i = Some bit ->
    nth_error (ami_levels polarity data) i
    = Some (if (bit =? 1)%Z
            then (polarity * (-1) ^ Z.of_nat (marks_before data i))%Z
            else 0%Z).
Proof.
  induction data as [ | b data IH ]; intros polarity i bit Hi.
  - destruct i; discriminate.
  - destruct i as [ | i ].
    + injection Hi as ->. cbn [ami_levels].
      destruct (bit =? 1)%Z; cbn; f_equal; lia.
    + cbn [nth_error] in Hi. cbn [ami_levels].
      destruct (Z.eqb_spec b 1) as [->|Hb]; cbn [nth_error];
        rewrite (IH _ i bit Hi); destruct (bit =? 1)%Z; try reflexivity;
        f_equal; unfold marks_before; cbn [firstn count_occ].
      * destruct (Z.eq_dec 1 1); [ | contradiction ].
        rewrite Nat2Z.inj_succ, Z.pow_succ_r by lia. lia.
      * destruct (Z.eq_dec b 1); [ contradiction | reflexivity ].
Qed.

Lemma sum_list_repeat (v : Z) (n : nat) :
  sum_list (repeat v n) = (v * Z.of_nat n)%Z.
Proof.
  induction n as [ | n IH ]; [ simpl; lia | ].
  cbn [repeat sum_list fold_right]. fold (sum_list (repeat v n)). lia.
Qed.

(** ** The two half-blocks of a Manchester block *)

Lemma manchester_block_first_half (s : nat) (bit : Z) :
  firstn (s / 2) (manchester_block s bit)
  = repeat (manchester_level bit) (s / 2).
Proof.
  unfold manchester_block.
  rewrite firstn_app, repeat_length, Nat.sub_diag. simpl.
  rewrite app_nil_r. apply firstn_all2. rewrite repeat_length. lia.
Qed.

Lemma manchester_block_second_half (s : nat) (bit : Z) :
  skipn (s / 2) (manchester_block s bit)
  = repeat (- manchester_level bit)%Z (s - s / 2).
Proof.
  unfold manchester_block.
  rewrite skipn_app, repeat_length, Nat.sub_diag.
  rewrite skipn_all2 by (rewrite repeat_length; lia). reflexivity.
Qed.

Lemma manchester_block_halves_sum (s : nat) (bit : Z) :
  halves_sum s (manchester_block s bit)
  = if Nat.even s then 0%Z else (- manchester_level bit)%Z.
Proof.
  unfold halves_sum.
  rewrite manchester_block_first_half, manchester_block_second_half,
    !sum_list_repeat.
  generalize (manchester_level bit). intros v.
  destruct (Nat.even s) eqn:Heven.
  - apply Nat.even_spec in Heven. destruct Heven as [m ->].
    rewrite (Nat.mul_comm 2 m), Nat.div_mul by lia.
    replace (m * 2 - m)%nat with m by lia. lia.
  - assert (Nat.odd s = true) as Hodd
        by (rewrite <- Nat.negb_even, Heven; reflexivity).
    apply Nat.odd_spec in Hodd. destruct Hodd as [m ->].
    rewrite (Nat.mul_comm 2 m), Nat.div_add_l by lia.
    change (1 / 2)%nat with 0%nat. rewrite Nat.add_0_r.
    replace (m * 2 + 1 - m)%nat with (S m) by lia. lia.
Qed.


(** * Encoder claims *)

(** C6.  For every non-empty bit sequence of length N, every
    samples_per_bit >= 1 and each of the four schemes, the encoder returns
    a signal, and its length is exactly N * S. *)
Theorem encoded_length (scheme : EncodingScheme) (bits : list Z) (spb : Z) :
  bits <> [] ->
  (1 <= spb)%Z ->
  exists signal,
    encoder scheme bits spb = Ok signal /\
    Z.of_nat (length signal) = (Z.of_nat (length bits) * spb)%Z.
Proof.
  intros _ Hspb. assert (0 <= spb)%Z as H0 by lia.
  destruct scheme; cbn [encoder].
  - rewrite (encode_nrz_l_blocks spb H0). eexists. split; [ reflexivity | ].
    rewrite (length_concat_blocks (Z.to_nat spb)), length_map; [ lia | ].
    apply Forall_map_length. intros x. apply repeat_length.
  - rewrite (encode_rz_blocks spb H0). eexists. split; [ reflexivity | ].
    rewrite (length_concat_blocks (Z.to_nat spb)), length_map; [ lia | ].
    apply Forall_map_length. apply rz_block_length.
  - rewrite (encode_manchester_blocks spb H0).
    eexists. split; [ reflexivity | ].
    rewrite (length_concat_blocks (Z.to_nat spb)), length_map; [ lia | ].
    apply Forall_map_length. apply manchester_block_length.
  - rewrite (encode_ami_blocks spb H0). eexists. split; [ reflexivity | ].
    rewrite (length_concat_blocks (Z.to_nat spb)), length_map,
      length_ami_levels; [ lia | ].
    apply Forall_map_length. intros x. apply repeat_length.
Qed.

Lemma encoded_length_witness :
  [1; 0; 1]%Z <> [] /\ (1 <= 3)%Z /\
  exists signal,
    encoder Manchester [1; 0; 1]%Z 3 = Ok signal /\
    Z.of_nat (length signal) = (Z.of_nat (length [1; 0; 1]%Z) * 3)%Z.
Proof.
  split; [ discriminate | ]. split; [ lia | ].
  apply (encoded_length Manchester [1; 0; 1]%Z 3); [ discriminate | lia ].
Defined.

(** C10.  For every sequence of integers, binary or not, and every
    samples_per_bit >= 1, NRZ-L encoding returns a signal: the block of an
    element equal to 1 is all +1 and the block of any other value is all -1,
    so a non-binary value is folded into the -1 level. *)
Theorem nrz_l_never_rejects (data : list Z) (spb : Z) :
  (1 <= spb)%Z ->
  exists signal,
    encode_nrz_l data spb = Ok signal /\
    forall (i : nat) (x : Z),
      nth_error data i = Some x ->
      block (Z.to_nat spb) signal i
      = repeat (if (x =? 1)%Z then 1%Z else (-1)%Z) (Z.to_nat spb).
Proof.
  intros Hspb. assert (0 <= spb)%Z as H0 by lia.
  rewrite (encode_nrz_l_blocks spb H0). eexists. split; [ reflexivity | ].
  intros i x Hi. apply block_concat.
  - apply Forall_map_length. intros y. apply repeat_length.
  - rewrite nth_error_map, Hi. reflexivity.
Qed.

Lemma nrz_l_never_rejects_witness :
  (1 <= 2)%Z /\
  exists signal,
    encode_nrz_l [1; 0; 2; -1]%Z 2 = Ok signal /\
    forall (i : nat) (x : Z),
      nth_error [1; 0; 2; -1]%Z i = Some x ->
      block (Z.to_nat 2) signal i
      = repeat (if (x =? 1)%Z then 1%Z else (-1)%Z) (Z.to_nat 2).
Proof.
  split; [ lia | ]. apply (nrz_l_never_rejects [1; 0; 2; -1]%Z 2). lia.
Defined.

(** C4, as the claim states it, fails for an odd samples_per_bit: the one
    bit 1 at three samples per bit is encoded as -1, +1, +1; its first
    half-block sums to -1 and its second half-block to +2. *)
Lemma manchester_odd_halves_unbalanced :
  encode_manchester [1]%Z 3 = Ok [-1; 1; 1]%Z /\
  halves_sum 3 (block 3 [-1; 1; 1]%Z 0) <> 0%Z.
Proof. split; [ reflexivity | discriminate ]. Qed.

(** C4, amended.  For every bit sequence and every samples_per_bit >= 1,
    the Manchester encoder returns a signal in which the block of every bit
    is S // 2 samples at one level (-1 for a bit equal to 1, +1 otherwise)
    followed by S - S // 2 samples at the opposite level.  The samples of
    the two half-blocks sum to 0 when S is even; when S is odd the second
    half-block has one sample more and the sum is its level. *)
Theorem manchester_halves (data : list Z) (spb : Z) :
  (1 <= spb)%Z ->
  exists signal,
    encode_manchester data spb = Ok signal /\
    forall (i : nat) (bit : Z),
      nth_error data i = Some bit ->
      let s := Z.to_nat spb in
      let blk := block s signal i in
      firstn (s / 2) blk = repeat (manchester_level bit) (s / 2) /\
      skipn (s / 2) blk = repeat (- manchester_level bit)%Z (s - s / 2) /\
      halves_sum s blk
      = if Nat.even s then 0%Z else (- manchester_level bit)%Z.
Proof.
  intros Hspb. assert (0 <= spb)%Z as H0 by lia.
  rewrite (encode_manchester_blocks spb H0).
  eexists. split; [ reflexivity | ].
  intros i bit Hi s blk.
  assert (blk = manchester_block s bit) as Hblk.
  { apply block_concat.
    - apply Forall_map_length. apply manchester_block_length.
    - rewrite nth_error_map, Hi. reflexivity. }
  subst blk. rewrite Hblk.
  split; [ apply manchester_block_first_half | ].
  split; [ apply manchester_block_second_half | ].
  apply manchester_block_halves_sum.
Qed.

Lemma manchester_halves_witness :
  (1 <= 3)%Z /\
  exists signal,
    encode_manchester [1; 0]%Z 3 = Ok signal /\
    forall (i : nat) (bit : Z),
      nth_error [1; 0]%Z i = Some bit ->
      let s := Z.to_nat 3 in
      let blk := block s signal i in
      firstn (s / 2) blk = repeat (manchester_level bit) (s / 2) /\
      skipn (s / 2) blk = repeat (- manchester_level bit)%Z (s - s / 2) /\
      halves_sum s blk
      = if Nat.even s then 0%Z else (- manchester_level bit)%Z.
Proof.
  split; [ lia | ]. apply (manchester_halves [1; 0]%Z 3). lia.
Defined.

(** C5.  For every bit sequence, the AMI encoder returns a signal in which
    the block of the first 1-bit is all +1, the blocks of two successive
    1-bits (no 1-bit between them, any number of other bits) are at opposite
    non-zero levels, and the block of every bit other than 1, in particular
    of every 0-bit, is all zeros.  The bits 1, 1 at two samples per bit give
    1, 1, -1, -1. *)
Theorem ami_alternates (data : list Z) (spb : Z) :
  (0 <= spb)%Z ->
  exists signal,
    encode_ami data spb = Ok signal /\
    (forall i : nat,
        nth_error data i = Some 1%Z ->
        (forall k, (k < i)%nat -> nth_error data k <> Some 1%Z) ->
        block (Z.to_nat spb) signal i = repeat 1%Z (Z.to_nat spb)) /\
    (forall i j : nat,
        (i < j)%nat ->
        nth_error data i = Some 1%Z ->
        nth_error data j = Some 1%Z ->
        (forall k, (i < k < j)%nat -> nth_error data k <> Some 1%Z) ->
        exists level : Z,
          (level = 1 \/ level = -1)%Z /\
          block (Z.to_nat spb) signal i = repeat level (Z.to_nat spb) /\
          block (Z.to_nat spb) signal j
          = repeat (- level)%Z (Z.to_nat spb)) /\
    (forall (i : nat) (bit : Z),
        nth_error data i = Some bit ->
        bit <> 1%Z ->
        block (Z.to_nat spb) signal i = repeat 0%Z (Z.to_nat spb)) /\
    encode_ami [1; 1]%Z 2 = Ok [1; 1; -1; -1]%Z.
Proof.
  intros Hspb. rewrite (encode_ami_blocks spb Hspb).
  eexists. split; [ reflexivity | ].
  assert (forall (i : nat) (bit : Z),
             nth_error data i = Some bit ->
             block (Z.to_nat spb)
               (concat (map (fun level => repeat level (Z.to_nat spb))
                            (ami_levels 1 data))) i
             = repeat (if (bit =? 1)%Z
                       then (1 * (-1) ^ Z.of_nat (marks_before data i))%Z
                       else 0%Z) (Z.to_nat spb)) as Hblock.
  { intros i bit Hi. apply block_concat.
    - apply Forall_map_length. intros x. apply repeat_length.
    - rewrite nth_error_map, (ami_levels_nth data 1 i bit Hi).
      reflexivity. }
  split; [ | split; [ | split; [ | reflexivity ] ] ].
  - intros i Hi Hfirst.
    rewrite (Hblock i 1%Z Hi), (marks_before_none data i Hfirst).
    reflexivity.
  - intros i j Hij Hi Hj Hbetween.
    exists ((-1) ^ Z.of_nat (marks_before data i))%Z.
    split; [ apply alternating_sign | ].
    rewrite (Hblock i 1%Z Hi), (Hblock j 1%Z Hj).
    assert (j < length data)%nat as Hjlen
        by (apply nth_error_Some; congruence).
    replace j with (i + 1 + (j - i - 1))%nat at 1 by lia.
    rewrite (marks_before_next data i Hi (j - i - 1))
      by (try (intros k Hk; apply Hbetween); lia).
    cbn [Z.eqb Pos.eqb]. rewrite Nat2Z.inj_succ, Z.pow_succ_r by lia.
    split; f_equal; lia.
  - intros i bit Hi Hbit. rewrite (Hblock i bit Hi).
    destruct (Z.eqb_spec bit 1); [ contradiction | reflexivity ].
Qed.

Lemma ami_alternates_witness :
  (0 <= 2)%Z /\
  exists signal,
    encode_ami [1; 0; 1; 1]%Z 2 = Ok signal /\
    block (Z.to_nat 2) signal 0 = repeat 1%Z (Z.to_nat 2).
Proof.
  split; [ lia | ].
  destruct (ami_alternates [1; 0; 1; 1]%Z 2) as [signal [Hs [Hfirst _]]];
    [ lia | ].
  exists signal. split; [ exact Hs | ].
  apply (Hfirst 0%nat); [ reflexivity | intros k Hk; lia ].
Defined.

(** * Handler claims *)

(** C2, as the claim states it, fails: a bit sequence holding the value 2
    is encoded, not rejected (the 2 is treated as a bit other than 1), and
    samples_per_bit = 0 is accepted too and yields empty signals. *)
Lemma encode_accepts_malformed_input :
  (exists body,
      encode [2]%Z 1 = Http200 body /\
      nrz_l body = [-1]%Z /\ rz body = [0]%Z /\
      manchester body = [-1]%Z /\ ami body = [0]%Z) /\
  (exists body,
      encode [1]%Z 0 = Http200 body /\
      nrz_l body = [] /\ rz body = [] /\
      manchester body = [] /\ ami body = []) /\
  encode_nrz_l [2]%Z 1 = Ok [-1]%Z.
Proof.
  split; [ | split; [ | reflexivity ] ];
    eexists; (split; [ reflexivity | ]); repeat split.
Qed.

(** C2, amended.  The encode handler rejects, with its InvalidInput
    failure (status 400), the empty bit sequence and nothing else.  For a
    non-empty sequence of integers, binary or not, and samples_per_bit >= 0
    it does not fail: it returns the four signals, in which every value
    other than 1 is encoded as a 0-bit.  For a non-empty sequence and a
    negative samples_per_bit it fails with the ValueError of the array
    library, reported with status 500, and returns no signal. *)
Theorem encode_outcomes (bits : list Z) (spb : Z) :
  match bits with
  | [] => encode bits spb = Http400 "No bits provided"
  | _ :: _ =>
      if (spb <? 0)%Z
      then encode bits spb = Http500 ValueError
      else
        exists body,
          encode bits spb = Http200 body /\
          nrz_l body
          = concat (map (fun bit => repeat (nrz_l_level bit) (Z.to_nat spb))
                        bits) /\
          rz body = concat (map (rz_block (Z.to_nat spb)) bits) /\
          manchester body
          = concat (map (manchester_block (Z.to_nat spb)) bits) /\
          ami body
          = concat (map (fun level => repeat level (Z.to_nat spb))
                        (ami_levels 1 bits))
  end.
Proof.
  destruct bits as [ | b bits ]; [ reflexivity | ].
  unfold encode. set (data := b :: bits).
  assert (0 < Z.of_nat (length data))%Z as Hlen by (subst data; simpl; lia).
  destruct (Z.ltb_spec spb 0) as [Hneg | Hpos].
  - unfold NpQ.linspace0.
    destruct (Z.ltb_spec (Z.of_nat (length data) * spb) 0); [ | nia ].
    reflexivity.
  - unfold NpQ.linspace0, Np.repeat_each.
    destruct (Z.ltb_spec (Z.of_nat (length data) * spb) 0); [ nia | ].
    destruct (Z.ltb_spec (spb * Z.of_nat (length data)) 0); [ nia | ].
    cbn [bind].
    rewrite (encode_nrz_l_blocks spb Hpos), (encode_rz_blocks spb Hpos),
      (encode_manchester_blocks spb Hpos), (encode_ami_blocks spb Hpos).
    cbn [bind try_except].
    eexists. split; [ reflexivity | ]. repeat split.
Qed.

(** C7.  Both handlers answer the empty bit sequence with the InvalidInput
    failure (status 400, "No bits provided"), whatever the other parameters
    and the numeric library are, and return no result.  The rejection comes
    before the analysis: the analyzer itself raises on the empty signal, and
    that exception would have been reported with status 500. *)
Theorem empty_bits_rejected (lib : SpectralLib) (spb : Z) (data_rate : Q) :
  encode [] spb = Http400 "No bits provided" /\
  spectral_analysis lib [] spb data_rate = Http400 "No bits provided" /\
  (forall fs, calculate_fft lib [] fs = Raise ValueError) /\
  (forall fs, calculate_spectral_efficiency_metrics lib [] data_rate fs
              = Raise ValueError).
Proof. repeat split. Qed.

Lemma calculate_psd_short (lib : SpectralLib) (signal : list Z) (fs : Q) :
  (length signal < 4)%nat ->
  welch_nperseg signal = 0%Z /\
  calculate_psd lib signal fs = Raise ValueError.
Proof.
  intros Hlen.
  assert (welch_nperseg signal = 0%Z) as Hseg.
  { unfold welch_nperseg. rewrite Z.div_small by lia. reflexivity. }
  split; [ exact Hseg | ].
  unfold calculate_psd, scipy_welch. rewrite Hseg. reflexivity.
Qed.

Lemma analyze_signal_short (lib : SpectralLib) (signal : list Z)
    (data_rate fs : Q) :
  (length signal < 4)%nat ->
  exists e, analyze_signal lib signal data_rate fs = Raise e.
Proof.
  intros Hlen. unfold analyze_signal.
  destruct (calculate_fft lib signal fs) as [[freqs_fft mag] | e].
  - cbn [bind].
    destruct (calculate_psd_short lib signal fs Hlen) as [_ ->].
    exists ValueError. reflexivity.
  - exists e. reflexivity.
Qed.

(** C9.  For every signal of fewer than four samples the Welch segment
    length min(256, len // 4) is 0 and the PSD operation raises instead of
    returning a frequency/psd pair; a request whose NRZ-L signal is that
    short (one bit at up to three samples per bit, for instance) makes the
    whole spectral analysis fail with status 500. *)
Theorem psd_fails_below_four_samples (lib : SpectralLib)
    (signal : list Z) (fs : Q) :
  (length signal < 4)%nat ->
  welch_nperseg signal = 0%Z /\
  calculate_psd lib signal fs = Raise ValueError /\
  (forall (bits : list Z) (spb : Z) (data_rate : Q),
      bits <> [] ->
      encode_nrz_l bits spb = Ok signal ->
      exists e, spectral_analysis lib bits spb data_rate = Http500 e).
Proof.
  intros Hlen.
  destruct (calculate_psd_short lib signal fs Hlen) as [Hseg Hpsd].
  split; [ exact Hseg | ]. split; [ exact Hpsd | ].
  intros bits spb data_rate Hbits Hnrz.
  destruct bits as [ | b bits ]; [ contradiction | ].
  unfold spectral_analysis. rewrite Hnrz. cbn [bind].
  destruct (encode_rz (b :: bits) spb) as [ rz_signal | e ];
    [ | exists e; reflexivity ].
  destruct (encode_manchester (b :: bits) spb) as [ man_signal | e ];
    [ | exists e; reflexivity ].
  destruct (encode_ami (b :: bits) spb) as [ ami_signal | e ];
    [ | exists e; reflexivity ].
  cbn [bind].
  destruct (analyze_signal_short lib signal data_rate
              (inject_Z spb * data_rate) Hlen) as [e He].
  exists e. rewrite He. reflexivity.
Qed.

Lemma psd_fails_below_four_samples_witness :
  (length [1; 1; 1]%Z < 4)%nat /\
  calculate_psd lib4 [1; 1; 1]%Z 3 = Raise ValueError /\
  exists e, spectral_analysis lib4 [1]%Z 3 1 = Http500 e.
Proof.
  assert (length [1; 1; 1]%Z < 4)%nat as Hlen by (simpl; lia).
  split; [ exact Hlen | ].
  destruct (psd_fails_below_four_samples lib4 [1; 1; 1]%Z 3 Hlen)
    as [_ [Hpsd Hall]].
  split; [ exact Hpsd | ].
  apply Hall; [ discriminate | reflexivity ].
Defined.

(** * Properties of the spectral analysis *)

(** ** The result monad *)

Lemma bind_ok {A B : Type} (c : result A) (k : A -> result B) (b : B) :
  bind c k = Ok b -> exists a, c = Ok a /\ k a = Ok b.
Proof.
  destruct c as [ a | e ]; cbn [bind]; intros H; [ | discriminate ].
  exists a. split; [ reflexivity | exact H ].
Qed.

(** ** Maximum and normalization *)

Lemma Qlt_bool_iff (a b : Q) : Qlt_bool a b = true <-> a < b.
Proof.
  unfold Qlt_bool. rewrite negb_true_iff, <- not_true_iff_false, Qle_bool_iff.
  split; [ apply Qnot_le_lt | apply Qlt_not_le ].
Qed.

Lemma Qlt_bool_false (a b : Q) : Qlt_bool a b = false <-> b <= a.
Proof.
  unfold Qlt_bool. rewrite negb_false_iff. apply Qle_bool_iff.
Qed.

Lemma pick_max_bounds (m y : Q) :
  m <= NpQ.pick_max m y /\ y <= NpQ.pick_max m y /\
  (NpQ.pick_max m y = m \/ NpQ.pick_max m y = y).
Proof.
  unfold NpQ.pick_max. destruct (Qlt_bool m y) eqn:E.
  - apply Qlt_bool_iff in E. repeat split; try lra. right. reflexivity.
  - apply Qlt_bool_false in E. repeat split; try lra. left. reflexivity.
Qed.

Lemma fold_max_spec (r : list Q) :
  forall x : Q,
    let m := fold_left NpQ.pick_max r x in
    x <= m /\ Forall (fun y => y <= m) r /\ In m (x :: r).
Proof.
  induction r as [ | y r IH ]; intros x; cbn [fold_left].
  - repeat split; [ lra | constructor | left; reflexivity ].
  - destruct (IH (NpQ.pick_max x y)) as [Hle [Hall Hin]].
    destruct (pick_max_bounds x y) as [Hx [Hy Hpick]].
    repeat split.
    + lra.
    + constructor; [ lra | exact Hall ].
    + destruct Hin as [Hin | Hin].
      * destruct Hpick as [Hp | Hp].
        -- left. congruence.
        -- right. left. congruence.
      * right. right. exact Hin.
Qed.

Lemma max_spec (a : list Q) (mx : Q) :
  NpQ.max a = Ok mx -> Forall (fun y => y <= mx) a /\ In mx a.
Proof.
  destruct a as [ | x r ]; [ discriminate | ].
  unfold NpQ.max. intros H. injection H as <-.
  destruct (fold_max_spec r x) as [Hx [Hall Hin]].
  split; [ constructor; assumption | exact Hin ].
Qed.

Lemma normalize_spec (raw out : list Q) :
  normalize raw = Ok out ->
  non_negative raw ->
  normalized_from raw out /\ non_negative out /\
  Forall (fun x => x <= 1) out /\ length out = length raw.
Proof.
  unfold normalize. intros H Hnn.
  apply bind_ok in H. destruct H as [mx [Hmax H]]. injection H as <-.
  destruct (max_spec raw mx Hmax) as [Hall Hin].
  destruct (Qlt_bool 0 mx) eqn:Hpos.
  - apply Qlt_bool_iff in Hpos.
    assert (Forall (fun x => x <= 1) (map (fun x => x / mx) raw)) as Hle1.
    { apply Forall_map. eapply Forall_impl; [ | exact Hall ].
      intros x Hx. cbn beta in *. apply Qle_shift_div_r; lra. }
    repeat split.
    + left. split; [ | exact Hle1 ].
      apply Exists_exists. exists (mx / mx). split.
      * apply in_map_iff. exists mx. split; [ reflexivity | exact Hin ].
      * field. lra.
    + apply Forall_map. eapply Forall_impl; [ | exact Hnn ].
      intros x Hx. cbn beta in *. apply Qle_shift_div_l; lra.
    + exact Hle1.
    + apply length_map.
  - apply Qlt_bool_false in Hpos.
    assert (all_zero raw) as Hzero.
    { apply Forall_forall. intros x Hx.
      pose proof (proj1 (Forall_forall _ _) Hall x Hx) as H1.
      pose proof (proj1 (Forall_forall _ _) Hnn x Hx) as H2.
      cbn beta in *. lra. }
    repeat split.
    + right. split; [ exact Hzero | reflexivity ].
    + exact Hnn.
    + eapply Forall_impl; [ | exact Hzero ].
      intros x Hx. cbn beta in *. lra.
Qed.

Lemma select_Forall {A : Type} (P : A -> Prop) (mask : list bool) :
  forall a out : list A,
    NpQ.select mask a = Ok out -> Forall P a -> Forall P out.
Proof.
  induction mask as [ | m mask IH ]; intros [ | x a ] out H Ha;
    cbn [NpQ.select] in H; try discriminate.
  - injection H as <-. constructor.
  - apply bind_ok in H. destruct H as [r [Hr H]]. injection H as <-.
    inversion Ha as [ | ? ? Hx Ha' ]; subst.
    specialize (IH a r Hr Ha').
    destruct m; [ constructor; assumption | exact IH ].
Qed.

Lemma calculate_fft_normalized (lib : SpectralLib) (signal : list Z)
    (fs : Q) (freqs full : list Q) :
  calculate_fft lib signal fs = Ok (freqs, full) ->
  non_negative (fft_abs lib signal) ->
  (exists raw, normalized_from raw full) /\
  non_negative full /\ Forall (fun x => x <= 1) full.
Proof.
  unfold calculate_fft. intros H Hnn.
  apply bind_ok in H. destruct H as [mag [Hmag H]].
  apply bind_ok in H. destruct H as [d [_ H]].
  apply bind_ok in H. destruct H as [fpos [_ H]].
  apply bind_ok in H. destruct H as [raw [Hraw H]].
  apply bind_ok in H. destruct H as [out [Hout H]].
  injection H as _ <-.
  assert (mag = fft_abs lib signal) as ->.
  { unfold NpQ.fft_magnitude in Hmag.
    destruct signal; [ discriminate | congruence ]. }
  assert (non_negative raw) as Hraw_nn
      by (eapply select_Forall; [ exact Hraw | exact Hnn ]).
  destruct (normalize_spec raw out Hout Hraw_nn) as [Hn [Hnn' [Hle _]]].
  split; [ exists raw; exact Hn | ]. split; assumption.
Qed.

Lemma calculate_psd_normalized (lib : SpectralLib) (signal : list Z)
    (fs : Q) (freqs out : list Q) :
  calculate_psd lib signal fs = Ok (freqs, out) ->
  non_negative (snd (welch lib signal fs (welch_nperseg signal))) ->
  normalized_from (snd (welch lib signal fs (welch_nperseg signal))) out.
Proof.
  unfold calculate_psd, scipy_welch. intros H Hnn.
  destruct (welch_nperseg signal <? 1)%Z; [ discriminate | ].
  cbn [bind] in H.
  destruct (welch lib signal fs (welch_nperseg signal)) as [wf wp].
  cbn [snd] in *.
  apply bind_ok in H. destruct H as [p [Hp H]]. injection H as _ <-.
  apply (normalize_spec wp p Hp Hnn).
Qed.

Lemma analyze_signal_ok (lib : SpectralLib) (signal : list Z)
    (data_rate fs : Q) (summary : SpectralSummary) :
  analyze_signal lib signal data_rate fs = Ok summary ->
  exists freqs_fft full freqs_psd,
    calculate_fft lib signal fs = Ok (freqs_fft, full) /\
    calculate_psd lib signal fs = Ok (freqs_psd, psd summary) /\
    calculate_spectral_efficiency_metrics lib signal data_rate fs
    = Ok (metrics summary) /\
    magnitude summary = firstn (length full / 2) full.
Proof.
  unfold analyze_signal. intros H.
  apply bind_ok in H. destruct H as [[freqs_fft full] [Hfft H]].
  apply bind_ok in H. destruct H as [[freqs_psd p] [Hpsd H]].
  apply bind_ok in H. destruct H as [m [Hm H]]. injection H as <-.
  exists freqs_fft, full, freqs_psd. repeat split; assumption.
Qed.

Lemma spectral_analysis_ok (lib : SpectralLib) (bits : list Z) (spb : Z)
    (data_rate : Q) (body : AnalysisBody) :
  spectral_analysis lib bits spb data_rate = Http200 body ->
  forall scheme : EncodingScheme,
  exists signal,
    encoder scheme bits spb = Ok signal /\
    analyze_signal lib signal data_rate (inject_Z spb * data_rate)
    = Ok (body scheme).
Proof.
  unfold spectral_analysis. destruct bits as [ | b bits ]; [ discriminate | ].
  set (data := b :: bits).
  destruct (encode_nrz_l data spb) as [ s1 | ] eqn:E1; [ | discriminate ].
  destruct (encode_rz data spb) as [ s2 | ] eqn:E2; [ | discriminate ].
  destruct (encode_manchester data spb) as [ s3 | ] eqn:E3;
    [ | discriminate ].
  destruct (encode_ami data spb) as [ s4 | ] eqn:E4; [ | discriminate ].
  cbn [bind].
  destruct (analyze_signal lib s1 _ _) as [ r1 | ] eqn:A1; [ | discriminate ].
  destruct (analyze_signal lib s2 _ _) as [ r2 | ] eqn:A2; [ | discriminate ].
  destruct (analyze_signal lib s3 _ _) as [ r3 | ] eqn:A3; [ | discriminate ].
  destruct (analyze_signal lib s4 _ _) as [ r4 | ] eqn:A4; [ | discriminate ].
  cbn [bind try_except]. intros H. injection H as <-.
  intros [ | | | ]; cbn [encoder]; eexists; split; eassumption.
Qed.

Lemma Forall_firstn {A : Type} (P : A -> Prop) (n : nat) (l : list A) :
  Forall P l -> Forall P (firstn n l).
Proof.
  intros H. revert n.
  induction H as [ | x l Hx Hl IH ]; intros [ | n ]; cbn [firstn];
    constructor; auto.
Qed.

(** * Normalization claim *)




(** * Properties of the efficiency metrics *)

(** ** Sums and running sums *)

Lemma fold_Qplus_ge (a : list Q) :
  non_negative a -> forall acc : Q, acc <= fold_left Qplus a acc.
Proof.
  induction 1 as [ | x a Hx Ha IH ]; intros acc; cbn [fold_left].
  - lra.
  - specialize (IH (acc + x)). lra.
Qed.

Lemma length_cumsum_from (a : list Q) :
  forall acc : Q, length (NpQ.cumsum_from acc a) = length a.
Proof.
  induction a as [ | x a IH ]; intros acc; cbn [NpQ.cumsum_from length];
    [ reflexivity | ].
  rewrite IH. reflexivity.
Qed.

(** The last running sum is the sum of the whole array. *)
Lemma cumsum_from_last (a : list Q) :
  forall acc : Q,
    a <> [] ->
    nth_error (NpQ.cumsum_from acc a) (length a - 1)
    = Some (fold_left Qplus a acc).
Proof.
  induction a as [ | x a IH ]; intros acc Hne; [ contradiction | ].
  destruct a as [ | y a ]; [ reflexivity | ].
  cbn [NpQ.cumsum_from length fold_left Nat.sub].
  specialize (IH (acc + x) ltac:(discriminate)).
  cbn [length Nat.sub NpQ.cumsum_from fold_left] in IH.
  rewrite Nat.sub_0_r in *. exact IH.
Qed.

(** ** The first index at which a condition holds *)

Lemma first_true (cond : list bool) :
  forall k : nat,
    nth_error cond k = Some true ->
    exists j : nat,
      (j <= k)%nat /\ nth_error cond j = Some true /\
      forall k', (k' < j)%nat -> nth_error cond k' = Some false.
Proof.
  induction cond as [ | c cond IH ]; intros k Hk.
  - destruct k; discriminate.
  - destruct c.
    + exists 0%nat. repeat split; [ lia | ]. intros k' Hk'. lia.
    + destruct k as [ | k ]; [ discriminate | ].
      destruct (IH k Hk) as [j [Hjk [Hj Hbefore]]].
      exists (S j). repeat split; [ lia | exact Hj | ].
      intros [ | k' ] Hk'; [ reflexivity | ].
      apply Hbefore. lia.
Qed.

Lemma where_from_first (cond : list bool) :
  forall base j : nat,
    nth_error cond j = Some true ->
    (forall k, (k < j)%nat -> nth_error cond k = Some false) ->
    exists rest, NpQ.where_from base cond = (base + j)%nat :: rest.
Proof.
  induction cond as [ | c cond IH ]; intros base j Hj Hbefore.
  - destruct j; discriminate.
  - destruct j as [ | j ].
    + injection Hj as ->. cbn [NpQ.where_from].
      rewrite Nat.add_0_r. eexists. reflexivity.
    + assert (c = false) as ->.
      { specialize (Hbefore 0%nat ltac:(lia)). injection Hbefore as ->.
        reflexivity. }
      cbn [NpQ.where_from].
      destruct (IH (S base) j Hj) as [rest Hrest].
      * intros k Hk. apply (Hbefore (S k)). lia.
      * exists rest. rewrite Hrest. f_equal. lia.
Qed.

(** ** The 90% crossing *)

Lemma bandwidth_indices_first (pp : list Q) :
  pp <> [] ->
  non_negative pp ->
  exists (i : nat) (rest : list nat),
    bandwidth_indices pp = i :: rest /\
    (i < length pp)%nat /\
    (exists c, nth_error (NpQ.cumsum pp) i = Some c /\
               NpQ.sum pp * (9 # 10) <= c) /\
    (forall j c, (j < i)%nat ->
                 nth_error (NpQ.cumsum pp) j = Some c ->
                 c < NpQ.sum pp * (9 # 10)) /\
    (NpQ.sum pp == 0 -> i = 0%nat).
Proof.
  intros Hne Hnn. unfold bandwidth_indices.
  set (t := NpQ.sum pp * (9 # 10)).
  set (cond := map (fun c => Qle_bool t c) (NpQ.cumsum pp)).
  assert (0 <= NpQ.sum pp) as Hsum by (apply (fold_Qplus_ge pp Hnn 0)).
  assert (nth_error cond (length pp - 1) = Some true) as Hlast.
  { subst cond. rewrite nth_error_map. unfold NpQ.cumsum.
    rewrite (cumsum_from_last pp 0 Hne). cbn [option_map]. f_equal.
    apply Qle_bool_iff. fold (NpQ.sum pp). subst t. lra. }
  destruct (first_true cond _ Hlast) as [i [Hik [Hi Hbefore]]].
  destruct (where_from_first cond 0 i Hi Hbefore) as [rest Hrest].
  exists i, rest. split; [ exact Hrest | ].
  assert (length pp <> 0)%nat as Hlen
      by (intros H0; apply length_zero_iff_nil in H0; contradiction).
  split; [ lia | ]. split; [ | split ].
  - subst cond. rewrite nth_error_map in Hi.
    destruct (nth_error (NpQ.cumsum pp) i) as [ c | ]; [ | discriminate ].
    exists c. split; [ reflexivity | ].
    apply Qle_bool_iff. cbn [option_map] in Hi. congruence.
  - intros j c Hj Hc. specialize (Hbefore j Hj).
    subst cond. rewrite nth_error_map, Hc in Hbefore.
    cbn [option_map] in Hbefore. injection Hbefore as Hb.
    apply Qlt_bool_iff. unfold Qlt_bool. rewrite Hb. reflexivity.
  - intros Hzero. destruct i as [ | i ]; [ reflexivity | exfalso ].
    specialize (Hbefore 0%nat ltac:(lia)).
    destruct pp as [ | x pp ]; [ contradiction | ].
    subst cond. cbn in Hbefore. injection Hbefore as Hb.
    apply not_true_iff_false in Hb. apply Hb. apply Qle_bool_iff.
    inversion Hnn as [ | ? ? Hx _ ]; subst. subst t. lra.
Qed.

(** ** The retained bins *)

Lemma select_none {A : Type} (mask : list bool) :
  forall a : list A,
    Forall (eq false) mask ->
    length a = length mask ->
    NpQ.select mask a = Ok [].
Proof.
  induction mask as [ | m mask IH ]; intros [ | x a ] Hm Hlen;
    try discriminate; [ reflexivity | ].
  inversion Hm as [ | ? ? Hm0 Hm' ]; subst.
  cbn [NpQ.select]. rewrite (IH a Hm') by (simpl in Hlen; lia).
  reflexivity.
Qed.

(** A mask that is true on a prefix and false afterwards keeps the prefix. *)
Lemma select_prefix {A : Type} (m1 m2 : list bool) :
  forall a : list A,
    Forall (eq true) m1 ->
    Forall (eq false) m2 ->
    length a = (length m1 + length m2)%nat ->
    NpQ.select (m1 ++ m2) a = Ok (firstn (length m1) a).
Proof.
  induction m1 as [ | m m1 IH ]; intros a H1 H2 Hlen.
  - cbn [app length firstn]. apply select_none; assumption.
  - destruct a as [ | x a ]; [ discriminate | ].
    inversion H1 as [ | ? ? Hm H1' ]; subst.
    cbn [app NpQ.select length firstn].
    rewrite (IH a H1' H2) by (simpl in Hlen; lia).
    reflexivity.
Qed.

Lemma fft_bins_split (n : nat) :
  (1 <= n)%nat ->
  (Z.to_nat ((Z.of_nat n - 1) / 2 + 1)
   + Z.to_nat (Z.of_nat n / 2))%nat = n.
Proof.
  intros Hn.
  pose proof (Z.div_mod (Z.of_nat n - 1) 2 ltac:(lia)) as H1.
  pose proof (Z.mod_pos_bound (Z.of_nat n - 1) 2 ltac:(lia)) as H2.
  pose proof (Z.div_mod (Z.of_nat n) 2 ltac:(lia)) as H3.
  pose proof (Z.mod_pos_bound (Z.of_nat n) 2 ltac:(lia)) as H4.
  lia.
Qed.

Lemma inject_Z_pos (k : Z) : (0 < k)%Z -> 0 < inject_Z k.
Proof. intros H. unfold Qlt. simpl. lia. Qed.

Lemma inject_Z_nonneg (k : Z) : (0 <= k)%Z -> 0 <= inject_Z k.
Proof. intros H. unfold Qle. simpl. lia. Qed.

Lemma inject_Z_neg (k : Z) : (k < 0)%Z -> inject_Z k < 0.
Proof. intros H. unfold Qlt. simpl. lia. Qed.

Lemma inject_Z_lt (j k : Z) : (j < k)%Z -> inject_Z j < inject_Z k.
Proof. intros H. unfold Qlt. simpl. lia. Qed.

(** The bin width [1 / (n * (1 / fs))] of a non-empty signal sampled at a
    positive rate is positive. *)
Lemma bin_width_pos (n : nat) (fs : Q) :
  (1 <= n)%nat -> 0 < fs ->
  0 < 1 / (inject_Z (Z.of_nat n) * (1 / fs)).
Proof.
  intros Hn Hfs.
  assert (0 < inject_Z (Z.of_nat n)) as Hnq by (apply inject_Z_pos; lia).
  assert (0 < 1 / fs) as Hd.
  { unfold Qdiv. rewrite Qmult_1_l. apply Qinv_lt_0_compat. exact Hfs. }
  unfold Qdiv at 1. rewrite Qmult_1_l. apply Qinv_lt_0_compat.
  apply Qmult_lt_0_compat; assumption.
Qed.

Lemma fftfreq_mask (n : nat) (fs : Q) :
  (1 <= n)%nat -> 0 < fs ->
  exists m1 m2 : list bool,
    map (fun f => Qle_bool 0 f) (NpQ.fftfreq n (1 / fs)) = m1 ++ m2 /\
    Forall (eq true) m1 /\ Forall (eq false) m2 /\
    length m1 = positive_bins n /\
    (length m1 + length m2)%nat = n /\
    firstn (positive_bins n) (NpQ.fftfreq n (1 / fs))
    = map (bin_freq n fs) (seq 0 (positive_bins n)).
Proof.
  intros Hn Hfs. pose proof (bin_width_pos n fs Hn Hfs) as Hval.
  pose proof (fft_bins_split n Hn) as Hsplit.
  unfold NpQ.fftfreq. fold (positive_bins n) in *.
  set (val := 1 / (inject_Z (Z.of_nat n) * (1 / fs))) in *.
  set (g := fun k : Z => inject_Z k * val).
  set (p1 := map Z.of_nat (seq 0 (positive_bins n))).
  set (p2 := map (fun k : nat => (Z.of_nat k - Z.of_nat n / 2)%Z)
                 (seq 0 (Z.to_nat (Z.of_nat n / 2)))).
  exists (map (fun f => Qle_bool 0 f) (map g p1)),
         (map (fun f => Qle_bool 0 f) (map g p2)).
  split; [ rewrite !map_app; reflexivity | ].
  split; [ | split; [ | split; [ | split ] ] ].
  - subst p1. rewrite !Forall_map. apply Forall_forall. intros j _.
    symmetry. apply Qle_bool_iff. subst g. cbn beta.
    apply Qmult_le_0_compat; [ apply inject_Z_nonneg; lia | lra ].
  - subst p2. rewrite !Forall_map. apply Forall_forall. intros j Hj.
    apply in_seq in Hj. symmetry. apply not_true_iff_false.
    rewrite Qle_bool_iff. subst g. cbn beta.
    assert (inject_Z (Z.of_nat j - Z.of_nat n / 2) < 0) as Hneg
        by (apply inject_Z_neg; lia).
    nra.
  - subst p1. rewrite !length_map, length_seq. reflexivity.
  - subst p1 p2. rewrite !length_map, !length_seq. exact Hsplit.
  - rewrite map_app, firstn_app.
    assert (length (map g p1) = positive_bins n) as Hl
        by (subst p1; rewrite !length_map, length_seq; reflexivity).
    rewrite Hl, Nat.sub_diag, firstn_all2 by lia.
    cbn [firstn]. rewrite app_nil_r. subst p1 g. rewrite map_map.
    reflexivity.
Qed.

Lemma positive_spectrum_shape (lib : SpectralLib) (signal : list Z)
    (fs : Q) :
  (1 <= length signal)%nat ->
  0 < fs ->
  length (fft_abs lib signal) = length signal ->
  positive_spectrum lib signal fs
  = Ok (map (bin_freq (length signal) fs)
            (seq 0 (positive_bins (length signal))),
        firstn (positive_bins (length signal))
               (map (fun x => x * x) (fft_abs lib signal))).
Proof.
  intros Hn Hfs Hlen.
  destruct (fftfreq_mask (length signal) fs Hn Hfs)
    as [m1 [m2 [Hmask [H1 [H2 [Hl1 [Hl12 Hfirst]]]]]]].
  unfold positive_spectrum, NpQ.fft_magnitude, NpQ.truediv.
  destruct signal as [ | x signal ]; [ simpl in Hn; lia | ].
  set (sig := x :: signal) in *.
  destruct (Qeq_bool fs 0) eqn:E;
    [ apply Qeq_bool_iff in E; lra | ].
  cbn [bind]. rewrite Hmask.
  rewrite (select_prefix m1 m2 (NpQ.fftfreq (length sig) (1 / fs)) H1 H2).
  - rewrite (select_prefix m1 m2 _ H1 H2)
      by (rewrite length_map; lia).
    cbn [bind]. rewrite Hl1, Hfirst. reflexivity.
  - rewrite <- (length_map (fun f => Qle_bool 0 f)), Hmask, length_app.
    reflexivity.
Qed.

Lemma positive_bins_bounds (n : nat) :
  (3 <= n)%nat -> (2 <= positive_bins n <= n)%nat.
Proof.
  intros Hn. unfold positive_bins.
  pose proof (Z.div_mod (Z.of_nat n - 1) 2 ltac:(lia)) as H1.
  pose proof (Z.mod_pos_bound (Z.of_nat n - 1) 2 ltac:(lia)) as H2.
  lia.
Qed.

Lemma squares_non_negative (a : list Q) :
  non_negative (map (fun x => x * x) a).
Proof.
  apply Forall_map. apply Forall_forall. intros x _. cbn beta. nra.
Qed.

Lemma bin_freq_lt (n : nat) (fs : Q) (j k : nat) :
  (1 <= n)%nat -> 0 < fs -> (j < k)%nat ->
  bin_freq n fs j < bin_freq n fs k.
Proof.
  intros Hn Hfs Hjk. unfold bin_freq.
  pose proof (bin_width_pos n fs Hn Hfs) as Hval.
  assert (inject_Z (Z.of_nat j) < inject_Z (Z.of_nat k)) as Hlt
      by (apply inject_Z_lt; lia).
  nra.
Qed.

Lemma bin_freq_0 (n : nat) (fs : Q) : bin_freq n fs 0 == 0.
Proof. unfold bin_freq. cbn [Z.of_nat]. apply Qmult_0_l. Qed.

Lemma nth_error_bins (n : nat) (fs : Q) (N j : nat) :
  (j < N)%nat ->
  nth_error (map (bin_freq n fs) (seq 0 N)) j = Some (bin_freq n fs j).
Proof.
  intros Hj. rewrite nth_error_map.
  assert (nth_error (seq 0 N) j = Some j) as ->; [ | reflexivity ].
  rewrite (nth_error_nth' _ 0%nat) by (rewrite length_seq; lia).
  rewrite seq_nth by lia. reflexivity.
Qed.

Lemma last_bins (n : nat) (fs : Q) (N : nat) :
  last (map (bin_freq n fs) (seq 0 (S N))) 0 = bin_freq n fs N.
Proof.
  rewrite seq_S, map_app. cbn [map Nat.add]. apply last_last.
Qed.

Lemma argmax_ok (a : list Q) :
  a <> [] -> exists k, NpQ.argmax a = Ok k.
Proof.
  destruct a as [ | x r ]; [ contradiction | ].
  intros _. eexists. reflexivity.
Qed.

Lemma getitem_ok (a : list Q) (i : nat) :
  (i < length a)%nat -> exists x, NpQ.getitem a i = Ok x.
Proof.
  intros Hi. unfold NpQ.getitem.
  destruct (nth_error a i) as [ x | ] eqn:E.
  - exists x. reflexivity.
  - apply nth_error_None in E. lia.
Qed.

(** * Bandwidth claim *)




(** * The shared random generator *)

(** The generate handler reads and advances the shared random generator:
    its reply depends on the state it is served from. *)
Remark generate_reads_the_world :
  let w0 := {| random_stream := fun _ => 0%Z; random_pos := 0 |} in
  let w1 := {| random_stream := fun _ => 1%Z; random_pos := 0 |} in
  fst (generate 2 w0) = Http200 [0; 0]%Z /\
  fst (generate 2 w1) = Http200 [1; 1]%Z /\
  random_pos (snd (generate 2 w0)) = 2%nat.
Proof. repeat split. Qed.

(** * Further properties of the encoders *)

Lemma block_of_map (s : nat) (f : Z -> list Z) (data : list Z)
    (i : nat) (bit : Z) :
  (forall x, length (f x) = s) ->
  nth_error data i = Some bit ->
  block s (concat (map f data)) i = f bit.
Proof.
  intros Hf Hi. apply block_concat.
  - apply Forall_map_length. exact Hf.
  - rewrite nth_error_map, Hi. reflexivity.
Qed.

(** X1.  RZ: for every sequence and every samples_per_bit >= 0 the encoder
    returns a signal in which the block of every bit is [S // 2] samples at
    +1 (bit equal to 1) or -1 (any other bit) followed by zeros. *)
Theorem rz_returns_to_zero (data : list Z) (spb : Z) :
  (0 <= spb)%Z ->
  exists signal,
    encode_rz data spb = Ok signal /\
    forall (i : nat) (bit : Z),
      nth_error data i = Some bit ->
      let s := Z.to_nat spb in
      firstn (s / 2) (block s signal i) = repeat (nrz_l_level bit) (s / 2) /\
      skipn (s / 2) (block s signal i) = repeat 0%Z (s - s / 2).
Proof.
  intros Hspb. rewrite (encode_rz_blocks spb Hspb).
  eexists. split; [ reflexivity | ].
  intros i bit Hi s. subst s. set (s := Z.to_nat spb).
  rewrite (block_of_map s (rz_block s) data i bit (rz_block_length s) Hi).
  unfold rz_block. split.
  - rewrite firstn_app, repeat_length, Nat.sub_diag. cbn [firstn].
    rewrite app_nil_r. apply firstn_all2. rewrite repeat_length. lia.
  - rewrite skipn_app, repeat_length, Nat.sub_diag.
    rewrite skipn_all2 by (rewrite repeat_length; lia). reflexivity.
Qed.

Lemma rz_returns_to_zero_witness :
  (0 <= 4)%Z /\
  exists signal,
    encode_rz [1; 0]%Z 4 = Ok signal /\
    skipn 2 (block 4 signal 1) = [0; 0]%Z.
Proof.
  split; [ lia | ].
  destruct (rz_returns_to_zero [1; 0]%Z 4) as [signal [Hs Hb]]; [ lia | ].
  exists signal. split; [ exact Hs | ].
  apply (Hb 1%nat 0%Z). reflexivity.
Defined.

Lemma Forall_concat {A : Type} (P : A -> Prop) (pieces : list (list A)) :
  Forall (Forall P) pieces -> Forall P (concat pieces).
Proof.
  induction 1 as [ | q pieces Hq Hall IH ]; cbn [concat].
  - constructor.
  - apply Forall_app. split; assumption.
Qed.

Lemma Forall_repeat {A : Type} (P : A -> Prop) (x : A) (n : nat) :
  P x -> Forall P (repeat x n).
Proof.
  intros Hx. apply Forall_forall. intros y Hy.
  apply repeat_spec in Hy. subst y. exact Hx.
Qed.

Lemma Forall_blocks (P : Z -> Prop) (f : Z -> list Z) (data : list Z) :
  (forall x, Forall P (f x)) -> Forall P (concat (map f data)).
Proof.
  intros Hf. apply Forall_concat. apply Forall_map.
  apply Forall_forall. intros x _. apply Hf.
Qed.

Lemma ami_levels_range (data : list Z) :
  forall polarity : Z,
    (polarity = 1 \/ polarity = -1)%Z ->
    Forall (fun x => x = -1 \/ x = 0 \/ x = 1)%Z (ami_levels polarity data).
Proof.
  induction data as [ | bit data IH ]; intros polarity Hp; cbn [ami_levels].
  - constructor.
  - destruct (bit =? 1)%Z; constructor; try lia; apply IH; lia.
Qed.

(** X2.  Every sample of every encoded signal is -1, 0 or 1, for every
    integer sequence; NRZ-L and Manchester signals never contain 0. *)
Theorem sample_levels (scheme : EncodingScheme) (data : list Z) (spb : Z) :
  (0 <= spb)%Z ->
  exists signal,
    encoder scheme data spb = Ok signal /\
    Forall (fun x => x = -1 \/ x = 0 \/ x = 1)%Z signal /\
    (scheme = NRZ_L \/ scheme = Manchester ->
     Forall (fun x => x = -1 \/ x = 1)%Z signal).
Proof.
  intros Hspb. destruct scheme; cbn [encoder].
  - rewrite (encode_nrz_l_blocks spb Hspb). eexists.
    split; [ reflexivity | ].
    split; [ | intros _ ]; apply Forall_blocks; intros x;
      apply Forall_repeat; unfold nrz_l_level; destruct (x =? 1)%Z; lia.
  - rewrite (encode_rz_blocks spb Hspb). eexists.
    split; [ reflexivity | ].
    split; [ | intros [H | H]; discriminate H ].
    apply Forall_blocks. intros x. unfold rz_block.
    apply Forall_app. split; apply Forall_repeat;
      unfold nrz_l_level; try destruct (x =? 1)%Z; lia.
  - rewrite (encode_manchester_blocks spb Hspb). eexists.
    split; [ reflexivity | ].
    split; [ | intros _ ]; apply Forall_blocks; intros x;
      unfold manchester_block; apply Forall_app; split;
      apply Forall_repeat; unfold manchester_level;
      destruct (x =? 1)%Z; lia.
  - rewrite (encode_ami_blocks spb Hspb). eexists.
    split; [ reflexivity | ].
    split; [ | intros [H | H]; discriminate H ].
    apply Forall_concat. apply Forall_map.
    eapply Forall_impl; [ | apply (ami_levels_range data 1); lia ].
    intros x Hx. cbn beta. apply Forall_repeat. exact Hx.
Qed.

Lemma sample_levels_witness :
  (0 <= 3)%Z /\
  exists signal,
    encoder AMI [1; 5; 1]%Z 3 = Ok signal /\
    Forall (fun x => x = -1 \/ x = 0 \/ x = 1)%Z signal.
Proof.
  split; [ lia | ].
  destruct (sample_levels AMI [1; 5; 1]%Z 3) as [signal [Hs [Hr _]]];
    [ lia | ].
  exists signal. split; assumption.
Defined.

(** X3.  For a non-empty sequence and a negative samples_per_bit every
    encoder raises ValueError; nothing is returned. *)
Theorem negative_samples_raise (scheme : EncodingScheme) (data : list Z)
    (spb : Z) :
  data <> [] ->
  (spb < 0)%Z ->
  encoder scheme data spb = Raise ValueError.
Proof.
  intros Hne Hneg.
  assert (0 < Z.of_nat (length data))%Z as Hlen.
  { destruct data; [ contradiction | simpl; lia ]. }
  destruct scheme; cbn [encoder];
    unfold encode_nrz_l, encode_rz, encode_manchester, encode_ami,
      Np.repeat_each, Np.zeros.
  - destruct (Z.ltb_spec (spb * Z.of_nat (length data)) 0);
      [ reflexivity | nia ].
  - destruct (Z.ltb_spec (Z.of_nat (length data) * spb) 0);
      [ reflexivity | nia ].
  - destruct (Z.ltb_spec (Z.of_nat (length data) * spb) 0);
      [ reflexivity | nia ].
  - destruct (Z.ltb_spec (Z.of_nat (length data) * spb) 0);
      [ reflexivity | nia ].
Qed.

Lemma negative_samples_raise_witness :
  [1; 0]%Z <> [] /\ (-2 < 0)%Z /\
  encoder Manchester [1; 0]%Z (-2) = Raise ValueError.
Proof.
  split; [ discriminate | ]. split; [ lia | ].
  apply (negative_samples_raise Manchester [1; 0]%Z (-2));
    [ discriminate | lia ].
Defined.

(** X4.  At one sample per bit the half-bit width is 0: the RZ signal is
    all zeros whatever the bits are, and the Manchester signal is the
    NRZ-L signal. *)
Theorem one_sample_per_bit (data : list Z) :
  encode_rz data 1 = Ok (repeat 0%Z (length data)) /\
  encode_manchester data 1 = encode_nrz_l data 1.
Proof.
  rewrite (encode_rz_blocks 1 ltac:(lia)),
    (encode_manchester_blocks 1 ltac:(lia)),
    (encode_nrz_l_blocks 1 ltac:(lia)).
  split; f_equal.
  - induction data as [ | bit data IH ]; [ reflexivity | ].
    cbn [map concat length repeat]. rewrite IH. reflexivity.
  - induction data as [ | bit data IH ]; [ reflexivity | ].
    cbn [map concat]. rewrite IH. f_equal.
    unfold manchester_block, manchester_level, nrz_l_level.
    destruct (bit =? 1)%Z; reflexivity.
Qed.

(** ** Decodability *)

Lemma app_eq_by_length {A : Type} (l1 : list A) :
  forall l2 r1 r2 : list A,
    length l1 = length l2 ->
    l1 ++ r1 = l2 ++ r2 ->
    l1 = l2 /\ r1 = r2.
Proof.
  induction l1 as [ | x l1 IH ]; intros [ | y l2 ] r1 r2 Hlen Heq;
    try discriminate.
  - split; [ reflexivity | exact Heq ].
  - cbn [app] in Heq. injection Heq as -> Heq.
    destruct (IH l2 r1 r2) as [-> ->]; [ simpl in Hlen; lia | exact Heq | ].
    split; reflexivity.
Qed.

Lemma concat_blocks_inj (s : nat) (pieces1 : list (list Z)) :
  (1 <= s)%nat ->
  forall pieces2 : list (list Z),
    Forall (fun q => length q = s) pieces1 ->
    Forall (fun q => length q = s) pieces2 ->
    concat pieces1 = concat pieces2 ->
    pieces1 = pieces2.
Proof.
  intros Hs.
  induction pieces1 as [ | p pieces1 IH ]; intros pieces2 H1 H2 Heq.
  - destruct pieces2 as [ | q pieces2 ]; [ reflexivity | ].
    inversion H2 as [ | ? ? Hq _ ]; subst.
    apply (f_equal (@length Z)) in Heq. cbn [concat] in Heq.
    rewrite length_app in Heq. simpl in Heq. lia.
  - inversion H1 as [ | ? ? Hp H1' ]; subst.
    destruct pieces2 as [ | q pieces2 ].
    + apply (f_equal (@length Z)) in Heq. cbn [concat] in Heq.
      rewrite length_app in Heq. simpl in Heq. lia.
    + inversion H2 as [ | ? ? Hq H2' ]; subst.
      cbn [concat] in Heq.
      destruct (app_eq_by_length p q _ _ ltac:(congruence) Heq)
        as [-> Hrest].
      f_equal. apply IH; assumption.
Qed.

Lemma map_inj_on {A B : Type} (P : A -> Prop) (f : A -> B) (l1 : list A) :
  (forall x y, P x -> P y -> f x = f y -> x = y) ->
  forall l2 : list A,
    Forall P l1 -> Forall P l2 -> map f l1 = map f l2 -> l1 = l2.
Proof.
  intros Hinj.
  induction l1 as [ | x l1 IH ]; intros [ | y l2 ] H1 H2 Heq;
    try discriminate; [ reflexivity | ].
  inversion H1; inversion H2; subst. cbn [map] in Heq.
  injection Heq as Hxy Heq.
  f_equal; [ apply Hinj; assumption | apply IH; assumption ].
Qed.

Lemma repeat_inj (a b : Z) (n : nat) :
  (1 <= n)%nat -> repeat a n = repeat b n -> a = b.
Proof.
  destruct n as [ | n ]; [ lia | ]. intros _ H.
  cbn [repeat] in H. congruence.
Qed.

Lemma ami_levels_abs (data : list Z) :
  binary data ->
  forall polarity : Z,
    (polarity = 1 \/ polarity = -1)%Z ->
    map Z.abs (ami_levels polarity data) = data.
Proof.
  induction 1 as [ | bit data Hbit Hdata IH ]; intros polarity Hp;
    cbn [ami_levels map]; [ reflexivity | ].
  destruct Hbit as [-> | ->]; cbn [Z.eqb Pos.eqb map]; f_equal.
  - apply IH. exact Hp.
  - lia.
  - apply IH. lia.
Qed.

Lemma binary_level_inj (x y : Z) :
  (x = 0 \/ x = 1)%Z -> (y = 0 \/ y = 1)%Z ->
  nrz_l_level x = nrz_l_level y -> x = y.
Proof.
  unfold nrz_l_level. intros [-> | ->] [-> | ->]; cbn; congruence.
Qed.

Lemma binary_manchester_inj (x y : Z) :
  (x = 0 \/ x = 1)%Z -> (y = 0 \/ y = 1)%Z ->
  manchester_level x = manchester_level y -> x = y.
Proof.
  unfold manchester_level. intros [-> | ->] [-> | ->]; cbn; congruence.
Qed.

(** X5.  Every scheme is uniquely decodable on bit sequences: two sequences
    of 0/1 values with the same encoded signal are equal, provided
    samples_per_bit >= 1, and >= 2 for RZ (whose first half-block is empty
    at one sample per bit). *)
Theorem uniquely_decodable (scheme : EncodingScheme)
    (data1 data2 : list Z) (spb : Z) :
  binary data1 ->
  binary data2 ->
  (min_samples scheme <= spb)%Z ->
  encoder scheme data1 spb = encoder scheme data2 spb ->
  data1 = data2.
Proof.
  intros Hb1 Hb2 Hmin Heq.
  assert (0 <= spb)%Z as H0 by (destruct scheme; cbn in Hmin; lia).
  set (s := Z.to_nat spb).
  assert (1 <= s)%nat as Hs by (destruct scheme; cbn in Hmin; lia).
  destruct scheme; cbn [encoder min_samples] in *.
  - rewrite !(encode_nrz_l_blocks spb H0) in Heq. injection Heq as Heq.
    apply concat_blocks_inj with (s := s) in Heq;
      try exact Hs;
      try (apply Forall_map_length; intros x; apply repeat_length).
    revert Heq. apply (map_inj_on (fun b => b = 0 \/ b = 1)%Z);
      try assumption.
    intros x y Hx Hy Hxy. apply binary_level_inj; try assumption.
    apply (repeat_inj _ _ s Hs Hxy).
  - rewrite !(encode_rz_blocks spb H0) in Heq. injection Heq as Heq.
    apply concat_blocks_inj with (s := s) in Heq;
      try exact Hs;
      try (apply Forall_map_length; apply rz_block_length).
    revert Heq. apply (map_inj_on (fun b => b = 0 \/ b = 1)%Z);
      try assumption.
    intros x y Hx Hy Hxy. apply binary_level_inj; try assumption.
    unfold rz_block in Hxy.
    destruct (app_eq_by_length _ _ _ _
                ltac:(rewrite !repeat_length; reflexivity) Hxy)
      as [Hhalf _].
    apply (repeat_inj _ _ (Z.to_nat spb / 2)); [ | exact Hhalf ].
    apply Nat.div_le_lower_bound; lia.
  - rewrite !(encode_manchester_blocks spb H0) in Heq.
    injection Heq as Heq.
    apply concat_blocks_inj with (s := s) in Heq;
      try exact Hs;
      try (apply Forall_map_length; apply manchester_block_length).
    revert Heq. apply (map_inj_on (fun b => b = 0 \/ b = 1)%Z);
      try assumption.
    intros x y Hx Hy Hxy. apply binary_manchester_inj; try assumption.
    unfold manchester_block in Hxy.
    destruct (app_eq_by_length _ _ _ _
                ltac:(rewrite !repeat_length; reflexivity) Hxy)
      as [_ Hhalf].
    apply repeat_inj in Hhalf; [ lia | ].
    subst s. pose proof (Nat.div_lt (Z.to_nat spb) 2 ltac:(lia) ltac:(lia)).
    lia.
  - rewrite !(encode_ami_blocks spb H0) in Heq. injection Heq as Heq.
    apply concat_blocks_inj with (s := s) in Heq;
      try exact Hs;
      try (apply Forall_map_length; intros x; apply repeat_length).
    apply (map_inj_on (fun _ => True)) in Heq.
    + rewrite <- (ami_levels_abs data1 Hb1 1), <- (ami_levels_abs data2 Hb2 1)
        by lia.
      rewrite Heq. reflexivity.
    + intros x y _ _ Hxy. apply (repeat_inj _ _ s Hs Hxy).
    + apply Forall_forall. intros; exact I.
    + apply Forall_forall. intros; exact I.
Qed.

Lemma uniquely_decodable_witness :
  binary [1; 0; 1]%Z /\ (min_samples RZ <= 2)%Z /\
  encoder RZ [1; 0; 1]%Z 2 = encoder RZ [1; 0; 1]%Z 2 /\
  [1; 0; 1]%Z = [1; 0; 1]%Z.
Proof.
  assert (binary [1; 0; 1]%Z) as Hb
      by (repeat constructor; (left; reflexivity) || (right; reflexivity)).
  split; [ exact Hb | ]. split; [ cbn; lia | ].
  split; [ reflexivity | ].
  apply (uniquely_decodable RZ [1; 0; 1]%Z [1; 0; 1]%Z 2 Hb Hb);
    [ cbn; lia | reflexivity ].
Defined.

(** ** DC balance *)

Lemma sum_list_app (a b : list Z) :
  sum_list (a ++ b) = (sum_list a + sum_list b)%Z.
Proof.
  unfold sum_list. induction a as [ | x a IH ]; cbn [app fold_right];
    [ reflexivity | ].
  rewrite IH. lia.
Qed.

Lemma sum_list_upsampled (s : nat) (levels : list Z) :
  sum_list (concat (map (fun level => repeat level s) levels))
  = (Z.of_nat s * sum_list levels)%Z.
Proof.
  induction levels as [ | l levels IH ]; cbn [map concat].
  - unfold sum_list. simpl. lia.
  - rewrite sum_list_app, sum_list_repeat, IH.
    unfold sum_list. cbn [fold_right]. lia.
Qed.

Lemma sum_ami_levels (data : list Z) :
  forall polarity : Z,
    sum_list (ami_levels polarity data)
    = if Nat.even (count_occ Z.eq_dec data 1%Z) then 0%Z else polarity.
Proof.
  induction data as [ | bit data IH ]; intros polarity;
    cbn [ami_levels count_occ]; [ reflexivity | ].
  destruct (Z.eqb_spec bit 1) as [-> | Hne].
  - destruct (Z.eq_dec 1 1) as [ _ | H ]; [ | contradiction ].
    unfold sum_list. cbn [fold_right]. fold (sum_list (ami_levels
      (polarity * -1) data)).
    rewrite IH, Nat.even_succ, <- Nat.negb_even.
    destruct (Nat.even (count_occ Z.eq_dec data 1%Z)); cbn [negb]; lia.
  - destruct (Z.eq_dec bit 1) as [ H | _ ]; [ contradiction | ].
    unfold sum_list. cbn [fold_right].
    fold (sum_list (ami_levels polarity data)).
    rewrite IH. destruct (Nat.even (count_occ Z.eq_dec data 1%Z)); lia.
Qed.

(** X6.  AMI is DC-balanced: the samples of the encoded signal sum to 0
    when the sequence holds an even number of 1-bits, and to exactly one
    block of +1 (samples_per_bit) when it holds an odd number. *)
Theorem ami_dc_balance (data : list Z) (spb : Z) :
  (0 <= spb)%Z ->
  exists signal,
    encode_ami data spb = Ok signal /\
    sum_list signal
    = if Nat.even (count_occ Z.eq_dec data 1%Z) then 0%Z else spb.
Proof.
  intros Hspb. rewrite (encode_ami_blocks spb Hspb).
  eexists. split; [ reflexivity | ].
  rewrite sum_list_upsampled, sum_ami_levels.
  destruct (Nat.even (count_occ Z.eq_dec data 1%Z)); lia.
Qed.

Lemma ami_dc_balance_witness :
  (0 <= 2)%Z /\
  exists signal,
    encode_ami [1; 0; 1; 1]%Z 2 = Ok signal /\ sum_list signal = 2%Z.
Proof.
  split; [ lia | ].
  apply (ami_dc_balance [1; 0; 1; 1]%Z 2). lia.
Defined.

Lemma sum_manchester_block_even (m : nat) (bit : Z) :
  sum_list (manchester_block (2 * m) bit) = 0%Z.
Proof.
  unfold manchester_block.
  rewrite (Nat.mul_comm 2 m), Nat.div_mul by lia.
  replace (m * 2 - m)%nat with m by lia.
  rewrite sum_list_app, !sum_list_repeat. lia.
Qed.

(** X7.  With an even samples_per_bit the Manchester signal is DC-free:
    its samples sum to 0 for every sequence. *)
Theorem manchester_dc_free (data : list Z) (spb : Z) :
  (0 <= spb)%Z ->
  (spb mod 2 = 0)%Z ->
  exists signal,
    encode_manchester data spb = Ok signal /\ sum_list signal = 0%Z.
Proof.
  intros Hspb Heven. rewrite (encode_manchester_blocks spb Hspb).
  eexists. split; [ reflexivity | ].
  assert (Z.to_nat spb = 2 * Z.to_nat (spb / 2))%nat as ->.
  { pose proof (Z.div_mod spb 2 ltac:(lia)) as Hdm.
    assert (0 <= spb / 2)%Z by (apply Z.div_pos; lia). lia. }
  induction data as [ | bit data IH ]; cbn [map concat];
    [ reflexivity | ].
  rewrite sum_list_app, sum_manchester_block_even, IH. reflexivity.
Qed.

Lemma manchester_dc_free_witness :
  (0 <= 4)%Z /\ (4 mod 2 = 0)%Z /\
  exists signal,
    encode_manchester [1; 1; 0]%Z 4 = Ok signal /\ sum_list signal = 0%Z.
Proof.
  split; [ lia | ]. split; [ reflexivity | ].
  apply (manchester_dc_free [1; 1; 0]%Z 4); [ lia | reflexivity ].
Defined.

(** * Further properties of the handlers *)

Lemma encode_body_explicit (bits : list Z) (spb : Z) :
  bits <> [] ->
  (0 <= spb)%Z ->
  encode bits spb
  = Http200
      {| time :=
           map (fun k =>
                  inject_Z (Z.of_nat k)
                  * (inject_Z (Z.of_nat (length bits))
                     / inject_Z (Z.of_nat (length bits) * spb)))
               (seq 0 (Z.to_nat (Z.of_nat (length bits) * spb)));
         original := flat_map (fun x => repeat x (Z.to_nat spb)) bits;
         nrz_l :=
           concat (map (fun bit => repeat (nrz_l_level bit) (Z.to_nat spb))
                       bits);
         rz := concat (map (rz_block (Z.to_nat spb)) bits);
         manchester := concat (map (manchester_block (Z.to_nat spb)) bits);
         ami := concat (map (fun level => repeat level (Z.to_nat spb))
                            (ami_levels 1 bits)) |}.
Proof.
  intros Hne Hspb. destruct bits as [ | b bits ]; [ contradiction | ].
  unfold encode. set (data := b :: bits).
  unfold NpQ.linspace0, Np.repeat_each.
  destruct (Z.ltb_spec (Z.of_nat (length data) * spb) 0); [ nia | ].
  destruct (Z.ltb_spec (spb * Z.of_nat (length data)) 0); [ nia | ].
  cbn [bind].
  rewrite (encode_nrz_l_blocks spb Hspb), (encode_rz_blocks spb Hspb),
    (encode_manchester_blocks spb Hspb), (encode_ami_blocks spb Hspb).
  reflexivity.
Qed.

Lemma length_upsampled (s : nat) (data : list Z) :
  length (flat_map (fun x => repeat x s) data) = (length data * s)%nat.
Proof.
  induction data as [ | x data IH ]; cbn [flat_map length];
    [ reflexivity | ].
  rewrite length_app, repeat_length, IH. reflexivity.
Qed.

(** X8.  For a non-empty sequence of N integers within the 64-bit range
    and samples_per_bit S >= 1 the encode handler returns six co-indexed
    arrays of N * S entries each: the time axis, the upsampled bits and the
    four signals.  The upsampled bits are the bits, each repeated S times;
    the time axis starts at 0, ascends strictly and stays below N, the
    duration in bit periods. *)
Theorem encode_body_shape (bits : list Z) (spb : Z) :
  bits <> [] ->
  Forall int64 bits ->
  (1 <= spb)%Z ->
  exists body,
    encode bits spb = Http200 body /\
    let n := (length bits * Z.to_nat spb)%nat in
    length (time body) = n /\ length (original body) = n /\
    length (nrz_l body) = n /\ length (rz body) = n /\
    length (manchester body) = n /\ length (ami body) = n /\
    original body = flat_map (fun x => repeat x (Z.to_nat spb)) bits /\
    (exists t0, nth_error (time body) 0 = Some t0 /\ t0 == 0) /\
    (forall k : nat,
        (k < n)%nat ->
        exists t, nth_error (time body) k = Some t /\
                  0 <= t /\ t < inject_Z (Z.of_nat (length bits))) /\
    (forall (j k : nat) (tj tk : Q),
        (j < k)%nat ->
        nth_error (time body) j = Some tj ->
        nth_error (time body) k = Some tk ->
        tj < tk).
Proof.
  intros Hne _ Hspb.
  rewrite (encode_body_explicit bits spb Hne ltac:(lia)).
  eexists. split; [ reflexivity | ].
  cbn [time original nrz_l rz manchester ami].
  set (s := Z.to_nat spb).
  assert (Z.to_nat (Z.of_nat (length bits) * spb) = length bits * s)%nat
    as Hn by (subst s; nia).
  assert (0 < Z.of_nat (length bits))%Z as Hlen.
  { destruct bits; [ contradiction | simpl; lia ]. }
  assert (0 < inject_Z (Z.of_nat (length bits))) as HN
      by (apply inject_Z_pos; exact Hlen).
  assert (0 < inject_Z spb) as HS by (apply inject_Z_pos; lia).
  set (step := inject_Z (Z.of_nat (length bits))
               / inject_Z (Z.of_nat (length bits) * spb)).
  assert (step == 1 / inject_Z spb) as Hstep
      by (subst step; rewrite inject_Z_mult; field; split; lra).
  assert (0 < step) as Hstep_pos.
  { rewrite Hstep. apply Qlt_shift_div_l; lra. }
  assert (forall k : nat,
             (k < length bits * s)%nat ->
             nth_error
               (map (fun k => inject_Z (Z.of_nat k) * step)
                    (seq 0 (Z.to_nat (Z.of_nat (length bits) * spb)))) k
             = Some (inject_Z (Z.of_nat k) * step)) as Hnth.
  { intros k Hk. rewrite nth_error_map.
    rewrite (nth_error_nth' _ 0%nat) by (rewrite length_seq; lia).
    rewrite seq_nth by lia. reflexivity. }
  assert (0 < length bits * s)%nat as Hpos by (subst s; nia).
  split; [ rewrite length_map, length_seq; exact Hn | ].
  split; [ apply length_upsampled | ].
  split.
  { rewrite (length_concat_blocks s), length_map; [ reflexivity | ].
    apply Forall_map_length. intros x. apply repeat_length. }
  split.
  { rewrite (length_concat_blocks s), length_map; [ reflexivity | ].
    apply Forall_map_length. apply rz_block_length. }
  split.
  { rewrite (length_concat_blocks s), length_map; [ reflexivity | ].
    apply Forall_map_length. apply manchester_block_length. }
  split.
  { rewrite (length_concat_blocks s), length_map, length_ami_levels;
      [ reflexivity | ].
    apply Forall_map_length. intros x. apply repeat_length. }
  split; [ reflexivity | ].
  split; [ | split ].
  - eexists. split; [ apply (Hnth 0%nat Hpos) | ].
    cbn [Z.of_nat]. apply Qmult_0_l.
  - intros k Hk. eexists. split; [ apply (Hnth k Hk) | ].
    assert (0 <= inject_Z (Z.of_nat k)) as Hk0
        by (apply inject_Z_nonneg; lia).
    assert (inject_Z (Z.of_nat k)
            < inject_Z (Z.of_nat (length bits)) * inject_Z spb) as Hklt.
    { rewrite <- inject_Z_mult. apply inject_Z_lt. subst s. nia. }
    split; [ nra | ].
    rewrite Hstep.
    assert (inject_Z (Z.of_nat k) * (1 / inject_Z spb)
            == inject_Z (Z.of_nat k) / inject_Z spb) as -> by (field; lra).
    apply Qlt_shift_div_r; [ exact HS | exact Hklt ].
  - intros j k tj tk Hjk Hj Hk.
    assert (k < length bits * s)%nat as Hkn.
    { destruct (Nat.lt_ge_cases k (length bits * s)) as [ H | H ];
        [ exact H | exfalso ].
      rewrite (proj2 (nth_error_None _ _)) in Hk; [ discriminate Hk | ].
      rewrite length_map, length_seq. lia. }
    rewrite (Hnth j ltac:(lia)) in Hj. rewrite (Hnth k Hkn) in Hk.
    injection Hj as <-. injection Hk as <-.
    assert (inject_Z (Z.of_nat j) < inject_Z (Z.of_nat k)) as Hlt
        by (apply inject_Z_lt; lia).
    nra.
Qed.

Lemma encode_body_shape_witness :
  [1; 0]%Z <> [] /\ Forall int64 [1; 0]%Z /\ (1 <= 2)%Z /\
  exists body,
    encode [1; 0]%Z 2 = Http200 body /\
    length (time body) = 4%nat /\ length (ami body) = 4%nat.
Proof.
  assert (Forall int64 [1; 0]%Z) as Hint
      by (repeat constructor; unfold int64; lia).
  split; [ discriminate | ]. split; [ exact Hint | ]. split; [ lia | ].
  destruct (encode_body_shape [1; 0]%Z 2) as [body [Hb Hshape]];
    [ discriminate | exact Hint | lia | ].
  exists body. split; [ exact Hb | ].
  destruct Hshape as [Ht [_ [_ [_ [_ [Ha _]]]]]].
  split; [ exact Ht | exact Ha ].
Defined.

(** X9.  The generate handler and the engine compose as follows.  For
    [num_bits >= 0] it returns exactly [num_bits] values, each 0 or 1, and
    advances the random generator by [num_bits] draws.  The encode handler
    accepts that output for every samples_per_bit >= 0 when
    [num_bits >= 1], and rejects it with status 400 when [num_bits = 0],
    the output being the empty list. *)
Theorem generated_bits_encode (num_bits : Z) (w : World) (spb : Z) :
  (0 <= num_bits)%Z ->
  exists (bits : list Z) (w' : World),
    generate num_bits w = (Http200 bits, w') /\
    binary bits /\
    length bits = Z.to_nat num_bits /\
    random_pos w' = (random_pos w + Z.to_nat num_bits)%nat /\
    (num_bits = 0%Z -> encode bits spb = Http400 "No bits provided") /\
    ((1 <= num_bits)%Z -> (0 <= spb)%Z ->
     exists body, encode bits spb = Http200 body).
Proof.
  intros HN. unfold generate.
  destruct (Z.ltb_spec num_bits 0); [ lia | ].
  eexists. eexists. split; [ reflexivity | ].
  set (bits := map _ (seq 0 (Z.to_nat num_bits))).
  assert (length bits = Z.to_nat num_bits) as Hlen
      by (subst bits; rewrite length_map, length_seq; reflexivity).
  split; [ | split; [ exact Hlen | split; [ reflexivity | split ] ] ].
  - subst bits. apply Forall_map. apply Forall_forall. intros k _.
    cbn beta.
    pose proof (Z.mod_pos_bound (random_stream w (random_pos w + k)) 2
                  ltac:(lia)). lia.
  - intros ->. destruct bits; [ reflexivity | discriminate Hlen ].
  - intros H1 Hspb.
    rewrite (encode_body_explicit bits spb); [ | | exact Hspb ].
    + eexists. reflexivity.
    + intros E. rewrite E in Hlen. simpl in Hlen. lia.
Qed.

Lemma generated_bits_encode_witness :
  (0 <= 3)%Z /\
  exists (bits : list Z) (w' : World),
    generate 3 {| random_stream := fun k => Z.of_nat k; random_pos := 0 |}
    = (Http200 bits, w') /\
    binary bits /\ length bits = 3%nat.
Proof.
  split; [ lia | ].
  destruct (generated_bits_encode
              3 {| random_stream := fun k => Z.of_nat k; random_pos := 0 |}
              1) as [bits [w' [Hg [Hb [Hl _]]]]]; [ lia | ].
  exists bits, w'. split; [ exact Hg | ]. split; [ exact Hb | exact Hl ].
Defined.

(** * Further properties of the spectral analysis *)

Lemma positive_bins_pos (n : nat) :
  (1 <= n)%nat -> (1 <= positive_bins n <= n)%nat.
Proof.
  intros Hn. unfold positive_bins.
  pose proof (Z.div_mod (Z.of_nat n - 1) 2 ltac:(lia)) as H1.
  pose proof (Z.mod_pos_bound (Z.of_nat n - 1) 2 ltac:(lia)) as H2.
  lia.
Qed.

(** Twice the index of a retained bin is below the number of samples. *)
Lemma positive_bins_below_half (n j : nat) :
  (1 <= n)%nat -> (j < positive_bins n)%nat -> (2 * j < n)%nat.
Proof.
  intros Hn Hj. unfold positive_bins in Hj.
  pose proof (Z.div_mod (Z.of_nat n - 1) 2 ltac:(lia)) as H1.
  pose proof (Z.mod_pos_bound (Z.of_nat n - 1) 2 ltac:(lia)) as H2.
  lia.
Qed.

Lemma bin_freq_value (n : nat) (fs : Q) (j : nat) :
  (1 <= n)%nat -> 0 < fs ->
  bin_freq n fs j == inject_Z (Z.of_nat j) * fs / inject_Z (Z.of_nat n).
Proof.
  intros Hn Hfs. unfold bin_freq.
  assert (0 < inject_Z (Z.of_nat n)) as Hnq by (apply inject_Z_pos; lia).
  field. split; lra.
Qed.

Lemma bin_freq_below_nyquist (n : nat) (fs : Q) (j : nat) :
  (1 <= n)%nat -> 0 < fs -> (j < positive_bins n)%nat ->
  0 <= bin_freq n fs j /\ 2 * bin_freq n fs j < fs.
Proof.
  intros Hn Hfs Hj.
  pose proof (positive_bins_below_half n j Hn Hj) as Hhalf.
  rewrite (bin_freq_value n fs j Hn Hfs).
  assert (0 < inject_Z (Z.of_nat n)) as Hnq by (apply inject_Z_pos; lia).
  assert (0 <= inject_Z (Z.of_nat j)) as Hjq
      by (apply inject_Z_nonneg; lia).
  assert (2 * inject_Z (Z.of_nat j) < inject_Z (Z.of_nat n)) as Hlt.
  { change 2 with (inject_Z 2). rewrite <- inject_Z_mult.
    apply inject_Z_lt. lia. }
  split.
  - apply Qle_shift_div_l; [ exact Hnq | ]. nra.
  - assert (2 * (inject_Z (Z.of_nat j) * fs / inject_Z (Z.of_nat n))
            == (2 * inject_Z (Z.of_nat j) * fs) / inject_Z (Z.of_nat n))
      as -> by (field; lra).
    apply Qlt_shift_div_r; [ exact Hnq | ]. nra.
Qed.

Lemma normalize_length (raw out : list Q) :
  normalize raw = Ok out -> length out = length raw.
Proof.
  unfold normalize. intros H.
  apply bind_ok in H. destruct H as [mx [_ H]]. injection H as <-.
  destruct (Qlt_bool 0 mx); [ apply length_map | reflexivity ].
Qed.

Lemma normalize_ok (raw : list Q) :
  raw <> [] -> exists out, normalize raw = Ok out.
Proof.
  destruct raw as [ | x raw ]; [ contradiction | ]. intros _.
  unfold normalize, NpQ.max. cbn [bind]. eexists. reflexivity.
Qed.

Lemma calculate_fft_shape (lib : SpectralLib) (signal : list Z) (fs : Q) :
  (1 <= length signal)%nat ->
  0 < fs ->
  length (fft_abs lib signal) = length signal ->
  exists mag,
    calculate_fft lib signal fs
    = Ok (map (bin_freq (length signal) fs)
              (seq 0 (positive_bins (length signal))), mag) /\
    normalize (firstn (positive_bins (length signal)) (fft_abs lib signal))
    = Ok mag /\
    length mag = positive_bins (length signal).
Proof.
  intros Hn Hfs Hlen.
  destruct (fftfreq_mask (length signal) fs Hn Hfs)
    as [m1 [m2 [Hmask [H1 [H2 [Hl1 [Hl12 Hfirst]]]]]]].
  pose proof (positive_bins_pos (length signal) Hn) as [HN1 HNn].
  destruct (normalize_ok
              (firstn (positive_bins (length signal)) (fft_abs lib signal)))
    as [mag Hmag].
  { intros E. apply (f_equal (@length Q)) in E.
    rewrite length_firstn, Hlen in E. simpl in E. lia. }
  exists mag. split; [ | split; [ exact Hmag | ] ].
  - unfold calculate_fft, NpQ.fft_magnitude, NpQ.truediv.
    destruct signal as [ | x signal ]; [ simpl in Hn; lia | ].
    set (sig := x :: signal) in *.
    destruct (Qeq_bool fs 0) eqn:E;
      [ apply Qeq_bool_iff in E; lra | ].
    cbn [bind]. rewrite Hmask.
    rewrite (select_prefix m1 m2 (NpQ.fftfreq (length sig) (1 / fs)) H1 H2).
    + rewrite (select_prefix m1 m2 _ H1 H2) by lia.
      cbn [bind]. rewrite Hl1, Hfirst, Hmag. reflexivity.
    + rewrite <- (length_map (fun f => Qle_bool 0 f)), Hmask, length_app.
      reflexivity.
  - rewrite (normalize_length _ _ Hmag), length_firstn, Hlen. lia.
Qed.



(** ** The peak search *)

(** [argmax_from] run on the rest [suf] of an array whose scanned part
    [pre] has its first maximum [best] at [besti]. *)
Lemma argmax_from_spec (suf : list Q) :
  forall (pre : list Q) (best : Q) (besti : nat),
    nth_error pre besti = Some best ->
    Forall (fun y => y <= best) pre ->
    (forall j y, (j < besti)%nat -> nth_error pre j = Some y -> y < best) ->
    let k := NpQ.argmax_from best besti (length pre) suf in
    exists v,
      nth_error (pre ++ suf) k = Some v /\
      Forall (fun y => y <= v) (pre ++ suf) /\
      (forall j y, (j < k)%nat -> nth_error (pre ++ suf) j = Some y -> y < v).
Proof.
  induction suf as [ | y suf IH ]; intros pre best besti Hbest Hall Hfirst.
  - cbn [NpQ.argmax_from]. rewrite app_nil_r. exists best.
    split; [ exact Hbest | ]. split; assumption.
  - cbn [NpQ.argmax_from].
    assert (besti < length pre)%nat as Hlt
        by (apply nth_error_Some; congruence).
    replace (pre ++ y :: suf) with ((pre ++ [y]) ++ suf)
      by (rewrite <- app_assoc; reflexivity).
    replace (S (length pre)) with (length (pre ++ [y]))
      by (rewrite length_app; simpl; lia).
    destruct (Qlt_bool best y) eqn:E.
    + apply Qlt_bool_iff in E. apply IH.
      * rewrite nth_error_app2, Nat.sub_diag by lia. reflexivity.
      * apply Forall_app. split.
        -- eapply Forall_impl; [ | exact Hall ].
           intros z Hz. cbn beta in *. lra.
        -- constructor; [ lra | constructor ].
      * intros j z Hj Hz. rewrite nth_error_app1 in Hz by exact Hj.
        pose proof (proj1 (Forall_forall _ _) Hall z
                      (nth_error_In _ _ Hz)) as Hle.
        cbn beta in Hle. lra.
    + apply Qlt_bool_false in E. apply IH.
      * rewrite nth_error_app1 by exact Hlt. exact Hbest.
      * apply Forall_app. split; [ exact Hall | ].
        constructor; [ exact E | constructor ].
      * intros j z Hj Hz.
        rewrite nth_error_app1 in Hz by lia.
        exact (Hfirst j z Hj Hz).
Qed.

Lemma argmax_spec (a : list Q) (k : nat) :
  NpQ.argmax a = Ok k ->
  exists v,
    nth_error a k = Some v /\
    Forall (fun y => y <= v) a /\
    (forall j y, (j < k)%nat -> nth_error a j = Some y -> y < v).
Proof.
  destruct a as [ | x r ]; [ discriminate | ].
  unfold NpQ.argmax. intros H. injection H as <-.
  apply (argmax_from_spec r [x] x 0).
  - reflexivity.
  - constructor; [ lra | constructor ].
  - intros j y Hj. lia.
Qed.

(** ** The metrics record, field by field *)

Lemma metrics_explicit (lib : SpectralLib) (signal : list Z)
    (data_rate fs : Q) :
  (3 <= length signal)%nat ->
  0 < fs ->
  length (fft_abs lib signal) = length signal ->
  let n := length signal in
  let N := positive_bins n in
  let pp := firstn N (map (fun x => x * x) (fft_abs lib signal)) in
  exists (i am : nat) (rest : list nat),
    length pp = N /\
    bandwidth_indices pp = i :: rest /\ (i < N)%nat /\
    NpQ.argmax (tl pp) = Ok am /\ (am + 1 < N)%nat /\
    calculate_spectral_efficiency_metrics lib signal data_rate fs
    = Ok {| dc_component :=
              if Qlt_bool 0 (NpQ.sum pp)
              then hd 0 pp / NpQ.sum pp * 100 else 0;
            bandwidth_90 := bin_freq n fs i;
            spectral_efficiency :=
              if Qlt_bool 0 (bin_freq n fs i)
              then data_rate / bin_freq n fs i else 0;
            peak_frequency := bin_freq n fs (am + 1);
            bandwidth_efficiency :=
              if Qlt_bool 0 data_rate
              then bin_freq n fs i / data_rate else 0;
            total_power := NpQ.sum pp |}.
Proof.
  intros Hn Hfs Hlen n N pp.
  assert (1 <= length signal)%nat as Hn1 by lia.
  pose proof (positive_spectrum_shape lib signal fs Hn1 Hfs Hlen) as Hshape.
  pose proof (positive_bins_bounds (length signal) Hn) as [HN2 HNn].
  fold n N pp in Hshape, HN2, HNn.
  assert (length pp = N) as Hpp
      by (subst pp; rewrite length_firstn, length_map, Hlen; fold n; lia).
  assert (non_negative pp) as Hnn
      by (subst pp; apply Forall_firstn, squares_non_negative).
  assert (pp <> []) as Hne
      by (intros E; rewrite E in Hpp; simpl in Hpp; lia).
  destruct (bandwidth_indices_first pp Hne Hnn)
    as [i [rest [Hbi [Hi _]]]].
  destruct (argmax_ok (tl pp)) as [am Ham].
  { destruct pp as [ | p0 [ | p1 pp' ] ]; simpl in Hpp; try lia.
    discriminate. }
  assert (am + 1 < N)%nat as Ham_lt.
  { destruct (argmax_spec (tl pp) am Ham) as [v [Hv _]].
    assert (am < length (tl pp))%nat as Hb
        by (apply nth_error_Some; congruence).
    destruct pp as [ | p0 pp' ]; [ contradiction | ].
    cbn [tl length] in *. lia. }
  exists i, am, rest.
  split; [ exact Hpp | ]. split; [ exact Hbi | ].
  split; [ lia | ]. split; [ exact Ham | ]. split; [ exact Ham_lt | ].
  unfold calculate_spectral_efficiency_metrics. rewrite Hshape.
  cbn [bind]. fold pp. rewrite Hbi.
  unfold NpQ.getitem.
  rewrite (nth_error_bins n fs N i) by lia. cbn [bind].
  rewrite Ham. cbn [bind].
  rewrite length_map, length_seq.
  destruct (Nat.ltb_spec (am + 1) N); [ | lia ].
  rewrite (nth_error_bins n fs N (am + 1)) by lia. cbn [bind].
  reflexivity.
Qed.

Lemma head_le_sum (p0 : Q) (r : list Q) :
  non_negative (p0 :: r) -> 0 <= p0 /\ p0 <= NpQ.sum (p0 :: r).
Proof.
  intros Hnn. inversion Hnn as [ | ? ? Hp Hr ]; subst.
  split; [ exact Hp | ].
  unfold NpQ.sum. cbn [fold_left].
  pose proof (fold_Qplus_ge r Hr (0 + p0)). lra.
Qed.



(** X12.  The peak frequency is never the DC bin, even when the DC bin
    holds the largest power: it is the frequency of the first bin, among
    the retained bins of index >= 1, whose power is maximal among them. *)
Theorem peak_skips_dc (lib : SpectralLib) (signal : list Z)
    (data_rate fs : Q) :
  (3 <= length signal)%nat ->
  0 < fs ->
  length (fft_abs lib signal) = length signal ->
  exists (m : EfficiencyMetrics) (freqs_positive psd_positive : list Q)
         (p : nat) (v : Q),
    calculate_spectral_efficiency_metrics lib signal data_rate fs = Ok m /\
    positive_spectrum lib signal fs = Ok (freqs_positive, psd_positive) /\
    (1 <= p)%nat /\
    nth_error freqs_positive p = Some (peak_frequency m) /\
    nth_error psd_positive p = Some v /\
    (forall j y, (1 <= j)%nat ->
                 nth_error psd_positive j = Some y -> y <= v) /\
    (forall j y, (1 <= j < p)%nat ->
                 nth_error psd_positive j = Some y -> y < v).
Proof.
  intros Hn Hfs Hlen.
  destruct (metrics_explicit lib signal data_rate fs Hn Hfs Hlen)
    as [i [am [rest [Hpp [_ [_ [Harg [Ham Hm]]]]]]]].
  pose proof (positive_spectrum_shape lib signal fs ltac:(lia) Hfs Hlen)
    as Hshape.
  set (n := length signal) in *. set (N := positive_bins n) in *.
  set (pp := firstn N (map (fun x => x * x) (fft_abs lib signal))) in *.
  destruct (argmax_spec (tl pp) am Harg) as [v [Hv [Hmax Hfirst]]].
  destruct pp as [ | p0 r ] eqn:Epp; [ simpl in Hpp; lia | ].
  cbn [tl] in *.
  eexists. eexists. eexists. exists (am + 1)%nat, v.
  split; [ exact Hm | ]. split; [ exact Hshape | ].
  cbn [peak_frequency]. split; [ lia | ].
  split; [ apply nth_error_bins; exact Ham | ].
  rewrite Nat.add_1_r. cbn [nth_error].
  split; [ exact Hv | ]. split.
  - intros [ | j ] y Hj Hy; [ lia | ]. cbn [nth_error] in Hy.
    exact (proj1 (Forall_forall _ _) Hmax y (nth_error_In _ _ Hy)).
  - intros [ | j ] y Hj Hy; [ lia | ]. cbn [nth_error] in Hy.
    apply (Hfirst j y); [ lia | exact Hy ].
Qed.

Lemma peak_skips_dc_witness :
  (3 <= length [1; 1; 1; 1]%Z)%nat /\ 0 < 4 /\
  exists m,
    calculate_spectral_efficiency_metrics lib4 [1; 1; 1; 1]%Z 1 4 = Ok m /\
    0 < peak_frequency m.
Proof.
  split; [ simpl; lia | ]. split; [ reflexivity | ].
  destruct (peak_skips_dc lib4 [1; 1; 1; 1]%Z 1 4)
    as [m [fp [pp [p [v [Hm _]]]]]];
    [ simpl; lia | reflexivity | reflexivity | ].
  exists m. split; [ exact Hm | ].
  injection Hm as <-. reflexivity.
Defined.



(** ** Normalization *)

Lemma Forall2_map_Qeq (f : Q -> Q) (l : list Q) :
  (forall y, f y == y) -> Forall2 Qeq (map f l) l.
Proof.
  intros Hf. induction l as [ | y l IH ]; cbn [map]; constructor;
    [ apply Hf | exact IH ].
Qed.

Lemma Forall2_Qeq_refl (l : list Q) : Forall2 Qeq l l.
Proof. induction l; constructor; [ reflexivity | assumption ]. Qed.

(** X14.  Normalizing is idempotent: a normalized array normalizes to
    itself, entry by entry. *)
Theorem normalize_idempotent (raw out : list Q) :
  normalize raw = Ok out ->
  exists out', normalize out = Ok out' /\ Forall2 Qeq out' out.
Proof.
  intros H. pose proof H as H'. unfold normalize in H'.
  apply bind_ok in H'. destruct H' as [mx [Hmax H']]. injection H' as Hout.
  destruct (max_spec raw mx Hmax) as [Hall Hin].
  destruct (Qlt_bool 0 mx) eqn:Hpos.
  - apply Qlt_bool_iff in Hpos.
    assert (out <> []) as Hne.
    { subst out. destruct raw; [ contradiction | discriminate ]. }
    destruct (normalize_ok out Hne) as [out' Hout'].
    exists out'. split; [ exact Hout' | ].
    unfold normalize in Hout'. apply bind_ok in Hout'.
    destruct Hout' as [mx' [Hmax' Hout']]. injection Hout' as <-.
    destruct (max_spec out mx' Hmax') as [Hall' Hin'].
    assert (mx' == 1) as Hone.
    { apply Qle_antisym.
      - subst out. apply in_map_iff in Hin'.
        destruct Hin' as [x [<- Hx]].
        pose proof (proj1 (Forall_forall _ _) Hall x Hx) as Hle.
        cbn beta in Hle. apply Qle_shift_div_r; lra.
      - assert (In (mx / mx) out) as Hone
            by (subst out; apply in_map_iff; exists mx; split;
                [ reflexivity | exact Hin ]).
        pose proof (proj1 (Forall_forall _ _) Hall' _ Hone) as Hle.
        cbn beta in Hle.
        assert (mx / mx == 1) as E by (field; lra). lra. }
    assert (Qlt_bool 0 mx' = true) as -> by (apply Qlt_bool_iff; lra).
    apply Forall2_map_Qeq. intros y. rewrite Hone. field.
  - subst out. exists raw. split; [ exact H | apply Forall2_Qeq_refl ].
Qed.

Lemma normalize_idempotent_witness :
  normalize [0; 2; 4] = Ok [0 / 4; 2 / 4; 4 / 4] /\
  exists out',
    normalize [0 / 4; 2 / 4; 4 / 4] = Ok out' /\
    Forall2 Qeq out' [0 / 4; 2 / 4; 4 / 4].
Proof.
  split; [ reflexivity | ].
  apply (normalize_idempotent [0; 2; 4] [0 / 4; 2 / 4; 4 / 4] eq_refl).
Defined.

(** ** The PSD operation *)

Lemma welch_nperseg_bounds (signal : list Z) :
  (4 <= length signal)%nat ->
  (1 <= welch_nperseg signal <= 256)%Z /\
  (4 * welch_nperseg signal <= Z.of_nat (length signal))%Z.
Proof.
  intros Hlen. unfold welch_nperseg.
  pose proof (Z.div_mod (Z.of_nat (length signal)) 4 ltac:(lia)) as H1.
  pose proof (Z.mod_pos_bound (Z.of_nat (length signal)) 4 ltac:(lia)) as H2.
  lia.
Qed.

(** X15.  For a signal of at least four samples at a positive sampling
    rate the PSD operation calls Welch's method with a segment length
    between 1 and 256 that is at most a quarter of the signal, and, the
    estimate being non-empty, returns its frequencies unchanged with a psd
    array of the same length. *)
Theorem psd_returns (lib : SpectralLib) (signal : list Z) (fs : Q) :
  (4 <= length signal)%nat ->
  0 < fs ->
  snd (welch lib signal fs (welch_nperseg signal)) <> [] ->
  exists p,
    calculate_psd lib signal fs
    = Ok (fst (welch lib signal fs (welch_nperseg signal)), p) /\
    length p = length (snd (welch lib signal fs (welch_nperseg signal))) /\
    (1 <= welch_nperseg signal <= 256)%Z /\
    (4 * welch_nperseg signal <= Z.of_nat (length signal))%Z.
Proof.
  intros Hlen _ Hne.
  destruct (welch_nperseg_bounds signal Hlen) as [Hseg Hquarter].
  destruct (normalize_ok _ Hne) as [p Hp].
  exists p. split; [ | split; [ | split; assumption ] ].
  - unfold calculate_psd, scipy_welch.
    destruct (Z.ltb_spec (welch_nperseg signal) 1); [ lia | ].
    cbn [bind].
    destruct (welch lib signal fs (welch_nperseg signal)) as [wf wp].
    cbn [fst snd] in *. rewrite Hp. reflexivity.
  - apply (normalize_length _ _ Hp).
Qed.

Lemma psd_returns_witness :
  (4 <= length [1; 1; -1; -1]%Z)%nat /\ 0 < 4 /\
  exists p, calculate_psd lib4 [1; 1; -1; -1]%Z 4 = Ok ([0], p).
Proof.
  split; [ simpl; lia | ]. split; [ reflexivity | ].
  destruct (psd_returns lib4 [1; 1; -1; -1]%Z 4) as [p [Hp _]];
    [ simpl; lia | reflexivity | discriminate | ].
  exists p. exact Hp.
Defined.

(** ** The analysis handler *)

Lemma concat_empty_blocks {A : Type} (f : A -> list Z) (l : list A) :
  (forall x, f x = []) -> concat (map f l) = [].
Proof.
  intros Hf. induction l as [ | x l IH ]; cbn [map concat];
    [ reflexivity | ].
  rewrite Hf, IH. reflexivity.
Qed.

(** X16.  For a non-empty sequence and samples_per_bit <= 0 the spectral
    analysis fails with ValueError, status 500: a negative value is refused
    by the encoders, and 0 yields empty signals, which the FFT refuses. *)
Theorem analysis_refuses_non_positive_samples (lib : SpectralLib)
    (bits : list Z) (spb : Z) (data_rate : Q) :
  bits <> [] ->
  (spb <= 0)%Z ->
  spectral_analysis lib bits spb data_rate = Http500 ValueError.
Proof.
  intros Hne Hspb. destruct bits as [ | b bits ]; [ contradiction | ].
  unfold spectral_analysis. set (data := b :: bits).
  destruct (Z.eq_dec spb 0) as [-> | Hnz].
  - rewrite (encode_nrz_l_blocks 0 ltac:(lia)),
      (encode_rz_blocks 0 ltac:(lia)),
      (encode_manchester_blocks 0 ltac:(lia)),
      (encode_ami_blocks 0 ltac:(lia)).
    cbn [bind].
    rewrite (concat_empty_blocks
               (fun bit => repeat (nrz_l_level bit) (Z.to_nat 0)) data)
      by reflexivity.
    reflexivity.
  - unfold encode_nrz_l, Np.repeat_each.
    assert (0 < Z.of_nat (length data))%Z by (subst data; simpl; lia).
    destruct (Z.ltb_spec (spb * Z.of_nat (length data)) 0); [ | nia ].
    reflexivity.
Qed.

Lemma analysis_refuses_non_positive_samples_witness :
  [1; 0]%Z <> [] /\ (0 <= 0)%Z /\
  spectral_analysis lib4 [1; 0]%Z 0 1 = Http500 ValueError.
Proof.
  split; [ discriminate | ]. split; [ lia | ].
  apply (analysis_refuses_non_positive_samples lib4 [1; 0]%Z 0 1);
    [ discriminate | lia ].
Defined.

Lemma calculate_fft_zero_rate (lib : SpectralLib) (signal : list Z)
    (fs : Q) :
  signal <> [] -> fs == 0 ->
  calculate_fft lib signal fs = Raise ZeroDivisionError.
Proof.
  intros Hne Hfs. destruct signal as [ | x signal ]; [ contradiction | ].
  unfold calculate_fft, NpQ.fft_magnitude, NpQ.truediv. cbn [bind].
  apply Qeq_bool_iff in Hfs. rewrite Hfs. reflexivity.
Qed.

(** X17.  For a non-empty sequence, samples_per_bit >= 1 and a data rate
    of 0 the sampling rate is 0 and the spectral analysis fails with
    ZeroDivisionError, status 500. *)
Theorem analysis_refuses_zero_data_rate (lib : SpectralLib)
    (bits : list Z) (spb : Z) (data_rate : Q) :
  bits <> [] ->
  (1 <= spb)%Z ->
  data_rate == 0 ->
  spectral_analysis lib bits spb data_rate = Http500 ZeroDivisionError.
Proof.
  intros Hne Hspb Hrate. destruct bits as [ | b bits ]; [ contradiction | ].
  unfold spectral_analysis. set (data := b :: bits).
  rewrite (encode_nrz_l_blocks spb ltac:(lia)),
    (encode_rz_blocks spb ltac:(lia)),
    (encode_manchester_blocks spb ltac:(lia)),
    (encode_ami_blocks spb ltac:(lia)).
  cbn [bind].
  set (s1 := concat (map (fun bit => repeat (nrz_l_level bit)
                                            (Z.to_nat spb)) data)).
  assert (s1 <> []) as Hs1.
  { intros E. apply (f_equal (@length Z)) in E. subst s1.
    rewrite (length_concat_blocks (Z.to_nat spb)), length_map in E
      by (apply Forall_map_length; intros x; apply repeat_length).
    subst data. simpl in E. lia. }
  unfold analyze_signal at 1.
  rewrite (calculate_fft_zero_rate lib s1 _ Hs1)
    by (rewrite Hrate; apply Qmult_0_r).
  reflexivity.
Qed.

Lemma analysis_refuses_zero_data_rate_witness :
  [1; 0]%Z <> [] /\ (1 <= 2)%Z /\ 0 == 0 /\
  spectral_analysis lib4 [1; 0]%Z 2 0 = Http500 ZeroDivisionError.
Proof.
  split; [ discriminate | ]. split; [ lia | ]. split; [ reflexivity | ].
  apply (analysis_refuses_zero_data_rate lib4 [1; 0]%Z 2 0);
    [ discriminate | lia | reflexivity ].
Defined.

Lemma calculate_psd_ok (lib : SpectralLib) (signal : list Z) (fs : Q) :
  (4 <= length signal)%nat ->
  snd (welch lib signal fs (welch_nperseg signal)) <> [] ->
  exists freqs p, calculate_psd lib signal fs = Ok (freqs, p).
Proof.
  intros Hlen Hne.
  destruct (welch_nperseg_bounds signal Hlen) as [Hseg _].
  destruct (normalize_ok _ Hne) as [p Hp].
  unfold calculate_psd, scipy_welch.
  destruct (Z.ltb_spec (welch_nperseg signal) 1); [ lia | ].
  cbn [bind].
  destruct (welch lib signal fs (welch_nperseg signal)) as [wf wp].
  cbn [snd] in Hp. rewrite Hp. cbn [bind]. eexists. eexists. reflexivity.
Qed.

Lemma length_first_half {A : Type} (l : list A) :
  length (firstn (length l / 2) l) = (length l / 2)%nat.
Proof.
  rewrite length_firstn. apply Nat.min_l.
  apply Nat.Div0.div_le_upper_bound. lia.
Qed.

Lemma analyze_signal_returns (lib : SpectralLib) (signal : list Z)
    (data_rate fs : Q) :
  (4 <= length signal)%nat ->
  0 < fs ->
  length (fft_abs lib signal) = length signal ->
  snd (welch lib signal fs (welch_nperseg signal)) <> [] ->
  exists summary,
    analyze_signal lib signal data_rate fs = Ok summary /\
    length (frequencies_fft summary)
    = (positive_bins (length signal) / 2)%nat /\
    length (magnitude summary)
    = (positive_bins (length signal) / 2)%nat.
Proof.
  intros Hn Hfs Hlen Hwelch.
  destruct (calculate_fft_shape lib signal fs ltac:(lia) Hfs Hlen)
    as [mag [Hfft [_ Hmag]]].
  destruct (calculate_psd_ok lib signal fs Hn Hwelch) as [fp [p Hpsd]].
  destruct (metrics_explicit lib signal data_rate fs ltac:(lia) Hfs Hlen)
    as [i [am [rest [_ [_ [_ [_ [_ Hm]]]]]]]].
  unfold analyze_signal. rewrite Hfft. cbn [bind].
  rewrite Hpsd. cbn [bind]. rewrite Hm. cbn [bind].
  eexists. split; [ reflexivity | ].
  cbn [frequencies_fft magnitude].
  rewrite !length_first_half, length_map, length_seq, Hmag.
  split; reflexivity.
Qed.


Lemma fft4_abs_length (signal : list Z) :
  length (fft4_abs signal) = length signal.
Proof.
  destruct signal as [ | x0 [ | x1 [ | x2 [ | x3 [ | x4 signal ] ] ] ] ];
    cbn [fft4_abs]; try reflexivity; rewrite length_map; reflexivity.
Qed.


(** ** Bandwidth and the efficiency figures *)


